(** * alru_cache: an LRU cache for asynchronous functions

    Shallow embedding of [src/alru_cache.py] ([_lru_cache_wrapper] and the
    three [wrapper] coroutines it selects between, [cache_info],
    [cache_clear]) together with the key builder [functools._make_key] that
    the module imports, and the properties of the cache engine stated in the
    specification. *)

From Stdlib Require Import ZArith Floats.SpecFloat.
From stdpp Require Import strings countable list fin_maps gmap.

Local Open Scope Z_scope.

(** ** Python values used as call arguments *)

Module Py.

(** The argument universe: exact [int], [float] (an IEEE binary64 value in
    the sign/mantissa/exponent form of [spec_float]) and [str] objects. *)
Inductive pyval :=
  | PyInt (z : Z)
  | PyFloat (f : spec_float)
  | PyStr (s : string).

Inductive pytype := TInt | TFloat | TStr.

(** [type(v)] *)
Definition type (v : pyval) : pytype :=
  match v with
  | PyInt _ => TInt
  | PyFloat _ => TFloat
  | PyStr _ => TStr
  end.

(** The elements a key tuple is made of: argument values, the [kwd_mark]
    object, and type objects. *)
Inductive kelem :=
  | KVal (v : pyval)
  | KMark
  | KType (t : pytype).

(** What [_make_key] returns: a bare argument (the fast path), or a
    [_HashedSeq] wrapping the flat key tuple. *)
Inductive rawkey :=
  | Bare (e : kelem)
  | HashedSeq (key : list kelem).

(** [fasttypes = {int, str}] *)
Definition in_fasttypes (e : kelem) : bool :=
  match e with
  | KVal (PyInt _) | KVal (PyStr _) => true
  | _ => false
  end.

Definition kwds_items (kwds : list (string * pyval)) : list kelem :=
  flat_map (fun item => [KVal (PyStr item.1); KVal item.2]) kwds.

Definition is_empty {A} (l : list A) : bool :=
  match l with [] => true | _ => false end.

(** [functools._make_key(args, kwds, typed)]; [kwds] is the keyword
    dictionary in its insertion order. *)
Definition _make_key (args : list pyval) (kwds : list (string * pyval))
    (typed : bool) : rawkey :=
  let key := KVal <$> args in
  let key :=
    if is_empty kwds then key
    else (key ++ [KMark]) ++ kwds_items kwds in
  if typed then
    let key := key ++ ((fun v => KType (type v)) <$> args) in
    let key :=
      if is_empty kwds then key
      else key ++ ((fun item => KType (type item.2)) <$> kwds) in
    HashedSeq key
  else
    match key with
    | [e] => if in_fasttypes e then Bare e else HashedSeq key
    | _ => HashedSeq key
    end.

(** *** Keys as a dictionary sees them

    A [dict] finds a key by hash and [==].  Numbers compare by exact value
    whatever their type ([1 == 1.0], and their hashes agree), strings by
    content, [_HashedSeq] objects element by element as lists, and a bare
    [int] or [str] never equals a [_HashedSeq].  [hashable] maps a key to a
    normal form of its [==]-class; NaN, which is not equal to itself, is
    kept as one value (the dictionary finds a NaN key by identity). *)

Inductive num :=
  | NInt (z : Z)
  | NFrac (s : bool) (m : positive) (e : Z)
  | NInf (s : bool)
  | NNan.

(** Strips the trailing zero bits of a mantissa into the exponent. *)
Fixpoint odd_part (m : positive) (e : Z) : positive * Z :=
  match m with
  | xO p => odd_part p (e + 1)
  | _ => (m, e)
  end.

Definition num_of_float (f : spec_float) : num :=
  match f with
  | S754_zero _ => NInt 0
  | S754_infinity s => NInf s
  | S754_nan => NNan
  | S754_finite s m e =>
      let '(m', e') := odd_part m e in
      if 0 <=? e' then
        NInt ((if s then -1 else 1) * (Z.pos m' * 2 ^ e'))
      else NFrac s m' e'
  end.

Inductive delem :=
  | DNum (n : num)
  | DStr (s : string)
  | DMark
  | DType (t : pytype).

Inductive dkey :=
  | DBare (e : delem)
  | DSeq (l : list delem).

Definition hashable_elem (e : kelem) : delem :=
  match e with
  | KVal (PyInt z) => DNum (NInt z)
  | KVal (PyFloat f) => DNum (num_of_float f)
  | KVal (PyStr s) => DStr s
  | KMark => DMark
  | KType t => DType t
  end.

Definition hashable (k : rawkey) : dkey :=
  match k with
  | Bare e => DBare (hashable_elem e)
  | HashedSeq l => DSeq (hashable_elem <$> l)
  end.

#[global] Instance pytype_eq_dec : EqDecision pytype.
Proof. solve_decision. Defined.
#[global] Instance num_eq_dec : EqDecision num.
Proof. solve_decision. Defined.
#[global] Instance delem_eq_dec : EqDecision delem.
Proof. solve_decision. Defined.
#[global] Instance dkey_eq_dec : EqDecision dkey.
Proof. solve_decision. Defined.

#[global] Instance pytype_countable : Countable pytype.
Proof.
  refine (inj_countable'
    (fun t => match t with TInt => 0%nat | TFloat => 1%nat | TStr => 2%nat end)
    (fun n => match n with 0%nat => TInt | 1%nat => TFloat | _ => TStr end) _).
  by intros [].
Defined.

#[global] Instance num_countable : Countable num.
Proof.
  refine (inj_countable'
    (fun n => match n with
              | NInt z => inl z
              | NFrac s m e => inr (inl (s, m, e))
              | NInf s => inr (inr (inl s))
              | NNan => inr (inr (inr ()))
              end)
    (fun c => match c with
              | inl z => NInt z
              | inr (inl (s, m, e)) => NFrac s m e
              | inr (inr (inl s)) => NInf s
              | inr (inr (inr _)) => NNan
              end) _).
  by intros [].
Defined.

#[global] Instance delem_countable : Countable delem.
Proof.
  refine (inj_countable'
    (fun d => match d with
              | DNum n => inl n
              | DStr s => inr (inl s)
              | DMark => inr (inr (inl ()))
              | DType t => inr (inr (inr t))
              end)
    (fun c => match c with
              | inl n => DNum n
              | inr (inl s) => DStr s
              | inr (inr (inl _)) => DMark
              | inr (inr (inr t)) => DType t
              end) _).
  by intros [].
Defined.

#[global] Instance dkey_countable : Countable dkey.
Proof.
  refine (inj_countable'
    (fun k => match k with DBare e => inl e | DSeq l => inr l end)
    (fun c => match c with inl e => DBare e | inr l => DSeq l end) _).
  by intros [].
Defined.

(** [make_key(args, kwds, typed)] as the cache uses it: the key object, up
    to the equality the dictionary applies to it. *)
Definition make_key (args : list pyval) (kwds : list (string * pyval))
    (typed : bool) : dkey :=
  hashable (_make_key args kwds typed).

(** The float [1.0]: mantissa [2^52], exponent [-52]. *)
Definition float_one : spec_float := S754_finite false 4503599627370496 (-52).

End Py.

Import Py.

(** ** The cache engine: [_lru_cache_wrapper] *)

(** Identity of a link, a Python list object [[PREV, NEXT, KEY, RESULT]]. *)
Definition addr := nat.

Section Engine.

(** Values the user function returns, and exceptions it raises. *)
Context {V E : Type}.

(** Objects the cache dictionary and the [RESULT] field hold. *)
Inductive obj :=
  | PyNone
  | PyLink (a : addr)
  | PyVal (v : V).

Record link := Link {
  PREV : addr;
  NEXT : addr;
  KEY : option dkey;
  RESULT : obj;
}.

#[global] Instance link_inhabited : Inhabited link :=
  populate (Link 0%nat 0%nat None PyNone).

(** The closure variables of [_lru_cache_wrapper], and the store of the
    list objects that links are. *)
Record state := State {
  cache : gmap dkey obj;
  hits : Z;
  misses : Z;
  full : bool;
  root : addr;
  heap : gmap addr link;
}.

Definition set_cache (c : gmap dkey obj) (st : state) : state :=
  State c (hits st) (misses st) (full st) (root st) (heap st).
Definition set_hits (n : Z) (st : state) : state :=
  State (cache st) n (misses st) (full st) (root st) (heap st).
Definition set_misses (n : Z) (st : state) : state :=
  State (cache st) (hits st) n (full st) (root st) (heap st).
Definition set_full (b : bool) (st : state) : state :=
  State (cache st) (hits st) (misses st) b (root st) (heap st).
Definition set_root (a : addr) (st : state) : state :=
  State (cache st) (hits st) (misses st) (full st) a (heap st).
Definition set_heap (h : gmap addr link) (st : state) : state :=
  State (cache st) (hits st) (misses st) (full st) (root st) h.

(** [a[PREV] = v], [a[NEXT] = v], [a[KEY] = v], [a[RESULT] = v] *)
Definition store_PREV (a v : addr) (h : gmap addr link) : gmap addr link :=
  let l := h !!! a in <[a := Link v (NEXT l) (KEY l) (RESULT l)]> h.
Definition store_NEXT (a v : addr) (h : gmap addr link) : gmap addr link :=
  let l := h !!! a in <[a := Link (PREV l) v (KEY l) (RESULT l)]> h.
Definition store_KEY (a : addr) (v : option dkey) (h : gmap addr link)
    : gmap addr link :=
  let l := h !!! a in <[a := Link (PREV l) (NEXT l) v (RESULT l)]> h.
Definition store_RESULT (a : addr) (v : obj) (h : gmap addr link)
    : gmap addr link :=
  let l := h !!! a in <[a := Link (PREV l) (NEXT l) (KEY l) v]> h.

(** [cache = {}; hits = misses = 0; full = False; root = [];
    root[:] = [root, root, None, None]] *)
Definition init : state :=
  State ∅ 0 0 false 0%nat {[ 0%nat := Link 0%nat 0%nat None PyNone ]}.

Inductive exn :=
  | KeyError
  | TypeError
  | UserError (e : E).

Inductive outcome :=
  | Return (o : obj)
  | Raise (x : exn).

(** A call of [wrapper] runs to its end, or to [await user_function(...)]:
    there it is suspended with the state it leaves behind, the arguments
    passed on, and what it does with the value and the state it is resumed
    with.  An exception of the user function leaves the coroutine at the
    [await]: no handler and no [with] block encloses it. *)
Inductive coro :=
  | Done (st : state) (o : outcome)
  | Await (st : state) (args : list pyval) (kwds : list (string * pyval))
      (resume : V → state → state * outcome).

(** [maxsize == 0]: no caching, just a statistics update. *)
Definition wrapper_zero (st : state) (args : list pyval)
    (kwds : list (string * pyval)) : coro :=
  Await (set_misses (misses st + 1) st) args kwds
    (fun v st' => (st', Return (PyVal v))).

(** [maxsize is None]: simple caching without ordering or size limit. *)
Definition unbounded_store (key : dkey) (v : V) (st : state)
    : state * outcome :=
  let result := PyVal v in
  (set_cache (<[key := result]> (cache st)) st, Return result).

Definition wrapper_unbounded (typed : bool) (st : state)
    (args : list pyval) (kwds : list (string * pyval)) : coro :=
  let key := make_key args kwds typed in
  match cache st !! key with
  | Some result => Done (set_hits (hits st + 1) st) (Return result)
  | None =>
      Await (set_misses (misses st + 1) st) args kwds (unbounded_store key)
  end.

(** Size limited caching that tracks accesses by recency. *)

(** Lines 109-115: move the link to the front of the circular queue. *)
Definition move_to_front (rt lnk : addr) (h : gmap addr link)
    : gmap addr link :=
  let link_prev := PREV (h !!! lnk) in
  let link_next := NEXT (h !!! lnk) in
  let h := store_NEXT link_prev link_next h in
  let h := store_PREV link_next link_prev h in
  let last := PREV (h !!! rt) in
  let h := store_NEXT last lnk h in
  let h := store_PREV rt lnk h in
  let h := store_PREV lnk last h in
  store_NEXT lnk rt h.

(** Lines 120-155: the second critical section, after the [await]. *)
Definition bounded_store (maxsize : Z) (key : dkey) (v : V) (st : state)
    : state * outcome :=
  let result := PyVal v in
  if bool_decide (is_Some (cache st !! key)) then
    (st, Return result)
  else if full st then
    let oldroot := root st in
    let h := store_KEY oldroot (Some key) (heap st) in
    let h := store_RESULT oldroot result h in
    let rt := NEXT (h !!! oldroot) in
    let oldkey := KEY (h !!! rt) in
    let h := store_KEY rt None h in
    let h := store_RESULT rt PyNone h in
    let st := set_heap h (set_root rt st) in
    match oldkey with
    | Some k =>
        if bool_decide (is_Some (cache st !! k)) then
          let c := delete k (cache st) in
          (set_cache (<[key := PyLink oldroot]> c) st, Return result)
        else (st, Raise KeyError)
    | None => (st, Raise KeyError)
    end
  else
    let last := PREV (heap st !!! root st) in
    let lnk := fresh (dom (heap st)) in
    let h := <[lnk := Link last (root st) (Some key) result]> (heap st) in
    let h := store_NEXT last lnk h in
    let h := store_PREV (root st) lnk h in
    let c := <[key := PyLink lnk]> (cache st) in
    let st := set_cache c (set_heap h st) in
    (set_full (bool_decide (maxsize ≤ Z.of_nat (size c))) st, Return result).

(** Lines 104-119: the first critical section.  [cache_get(key)] is [None]
    for an absent key (and would be for a stored [None]); unpacking
    anything that is not a link raises. *)
Definition wrapper_bounded (maxsize : Z) (typed : bool) (st : state)
    (args : list pyval) (kwds : list (string * pyval)) : coro :=
  let key := make_key args kwds typed in
  match cache st !! key with
  | Some (PyLink lnk) =>
      let result := RESULT (heap st !!! lnk) in
      let h := move_to_front (root st) lnk (heap st) in
      Done (set_hits (hits st + 1) (set_heap h st)) (Return result)
  | Some (PyVal _) => Done st (Raise TypeError)
  | Some PyNone | None =>
      Await (set_misses (misses st + 1) st) args kwds
        (bounded_store maxsize key)
  end.

(** The [wrapper] that [_lru_cache_wrapper(user_function, maxsize, typed,
    _CacheInfo)] returns. *)
Definition wrapper (maxsize : option Z) (typed : bool) (st : state)
    (args : list pyval) (kwds : list (string * pyval)) : coro :=
  match maxsize with
  | Some n =>
      if decide (n = 0) then wrapper_zero st args kwds
      else wrapper_bounded n typed st args kwds
  | None => wrapper_unbounded typed st args kwds
  end.

(** [_CacheInfo(hits, misses, maxsize, currsize)] *)
Record CacheInfo := mkCacheInfo {
  ci_hits : Z;
  ci_misses : Z;
  ci_maxsize : option Z;
  ci_currsize : Z;
}.

Definition cache_info (maxsize : option Z) (st : state) : CacheInfo :=
  mkCacheInfo (hits st) (misses st) maxsize (Z.of_nat (size (cache st))).

(** [cache.clear(); root[:] = [root, root, None, None];
    hits = misses = 0; full = False] *)
Definition cache_clear (st : state) : state :=
  let rt := root st in
  State ∅ 0 0 false rt (<[rt := Link rt rt None PyNone]> (heap st)).

(** *** Running calls *)

(** A call made and awaited to its end with nothing scheduled in between.
    The third component counts the invocations of the user function. *)
Definition call (user_function : list pyval → list (string * pyval) → V + E)
    (maxsize : option Z) (typed : bool) (st : state)
    (args : list pyval) (kwds : list (string * pyval))
    : state * outcome * nat :=
  match wrapper maxsize typed st args kwds with
  | Done st' o => (st', o, 0%nat)
  | Await st' args' kwds' resume =>
      match user_function args' kwds' with
      | inl v => (resume v st', 1%nat)
      | inr e => (st', Raise (UserError e), 1%nat)
      end
  end.

End Engine.

Arguments obj : clear implicits.
Arguments link : clear implicits.
Arguments state : clear implicits.
Arguments exn : clear implicits.
Arguments outcome : clear implicits.
Arguments coro : clear implicits.

(** *** Calls in sequence *)

Section Runs.

Context {V E : Type}.
Variable user_function : list pyval → list (string * pyval) → V + E.
Variable maxsize : option Z.
Variable typed : bool.

(** Calls made one after the other, each awaited to its end: the final
    state, the outcomes in order, and the number of invocations of the user
    function. *)
Fixpoint run_calls (st : state V)
    (calls : list (list pyval * list (string * pyval)))
    : state V * list (outcome V E) * nat :=
  match calls with
  | [] => (st, [], 0%nat)
  | c :: calls' =>
      let '(st1, o, n) := call user_function maxsize typed st c.1 c.2 in
      let '(st2, os, m) := run_calls st1 calls' in
      (st2, o :: os, (n + m)%nat)
  end.

End Runs.

(** *** Calls interleaved at the [await]

    The coroutines of one cache share its closure variables.  Between two
    suspension points a coroutine runs alone (the lock is held, or the
    event loop runs nothing else), so a configuration is the shared state
    and the continuations of the calls suspended at their [await]. *)

Section System.

Context {V E : Type}.
Variable maxsize : option Z.
Variable typed : bool.

Definition config : Type :=
  state V * list (V → state V → state V * outcome V E).

(** The steps a call takes: it starts and runs to its [return] or to its
    [await]; a suspended call is resumed with the value of the user
    function; a suspended call ends there, with the exception of the user
    function or by cancellation. *)
Inductive call_step : config → config → Prop :=
  | step_done st pending args kwds st' (o : outcome V E) :
      wrapper maxsize typed st args kwds = Done st' o →
      call_step (st, pending) (st', pending)
  | step_await st pending args kwds st' args' kwds' resume :
      wrapper maxsize typed st args kwds = Await st' args' kwds' resume →
      call_step (st, pending) (st', resume :: pending)
  | step_resume st p1 resume p2 v :
      call_step (st, p1 ++ resume :: p2) ((resume v st).1, p1 ++ p2)
  | step_fail st p1 resume p2 :
      call_step (st, p1 ++ resume :: p2) (st, p1 ++ p2).

Inductive step : config → config → Prop :=
  | step_call c c' : call_step c c' → step c c'
  | step_clear st pending : step (st, pending) (cache_clear st, pending).

(** The configurations a cache can be in after any sequence of calls,
    interleaved in any way, and clears. *)
Definition reachable (c : config) : Prop := rtc step (init, []) c.

End System.

(** *** Walking the circular list *)

Section Walk.

Context {V : Type}.

(** From [a], follows [NEXT] until the root comes up; the links passed. *)
Fixpoint walk (h : gmap addr (link V)) (rt : addr) (fuel : nat) (a : addr)
    : option (list addr) :=
  if decide (a = rt) then Some []
  else
    match fuel with
    | O => None
    | S fuel' => cons a <$> walk h rt fuel' (NEXT (h !!! a))
    end.

(** The links of the list, oldest first: from [root[NEXT]] round to the
    root.  No list is longer than the number of links ever made. *)
Definition ring_links (st : state V) : option (list addr) :=
  walk (heap st) (root st) (size (heap st)) (NEXT (heap st !!! root st)).

(** Their [KEY] fields. *)
Definition ring_keys (st : state V) : option (list (option dkey)) :=
  fmap (M := list) (fun a => KEY (heap st !!! a)) <$> ring_links st.

End Walk.

(** *** The recency order, abstractly *)

(** What a completed call for key [k] does to the keys listed from least to
    most recently used, under a positive capacity [n]. *)
Definition lru_touch (n : Z) (ks : list dkey) (k : dkey) : list dkey :=
  if bool_decide (k ∈ ks) then filter (fun k' => k' ≠ k) ks ++ [k]
  else if bool_decide (n ≤ Z.of_nat (length ks)) then tail ks ++ [k]
  else ks ++ [k].

(** * Properties *)

(** ** Reading a field after a store *)

Section Heap.

Context {V : Type}.
Implicit Types (h : gmap addr (link V)) (a b v : addr).

Lemma NEXT_store_NEXT a v h b :
  NEXT (store_NEXT a v h !!! b) = if decide (a = b) then v else NEXT (h !!! b).
Proof. unfold store_NEXT. rewrite lookup_total_insert. by case_decide; subst. Qed.

Lemma PREV_store_NEXT a v h b : PREV (store_NEXT a v h !!! b) = PREV (h !!! b).
Proof. unfold store_NEXT. rewrite lookup_total_insert. by case_decide; subst. Qed.

Lemma KEY_store_NEXT a v h b : KEY (store_NEXT a v h !!! b) = KEY (h !!! b).
Proof. unfold store_NEXT. rewrite lookup_total_insert. by case_decide; subst. Qed.

Lemma RESULT_store_NEXT a v h b :
  RESULT (store_NEXT a v h !!! b) = RESULT (h !!! b).
Proof. unfold store_NEXT. rewrite lookup_total_insert. by case_decide; subst. Qed.

Lemma PREV_store_PREV a v h b :
  PREV (store_PREV a v h !!! b) = if decide (a = b) then v else PREV (h !!! b).
Proof. unfold store_PREV. rewrite lookup_total_insert. by case_decide; subst. Qed.

Lemma NEXT_store_PREV a v h b : NEXT (store_PREV a v h !!! b) = NEXT (h !!! b).
Proof. unfold store_PREV. rewrite lookup_total_insert. by case_decide; subst. Qed.

Lemma KEY_store_PREV a v h b : KEY (store_PREV a v h !!! b) = KEY (h !!! b).
Proof. unfold store_PREV. rewrite lookup_total_insert. by case_decide; subst. Qed.

Lemma RESULT_store_PREV a v h b :
  RESULT (store_PREV a v h !!! b) = RESULT (h !!! b).
Proof. unfold store_PREV. rewrite lookup_total_insert. by case_decide; subst. Qed.

Lemma KEY_store_KEY a k h b :
  KEY (store_KEY a k h !!! b) = if decide (a = b) then k else KEY (h !!! b).
Proof. unfold store_KEY. rewrite lookup_total_insert. by case_decide; subst. Qed.

Lemma NEXT_store_KEY a k h b : NEXT (store_KEY a k h !!! b) = NEXT (h !!! b).
Proof. unfold store_KEY. rewrite lookup_total_insert. by case_decide; subst. Qed.

Lemma PREV_store_KEY a k h b : PREV (store_KEY a k h !!! b) = PREV (h !!! b).
Proof. unfold store_KEY. rewrite lookup_total_insert. by case_decide; subst. Qed.

Lemma RESULT_store_KEY a k h b :
  RESULT (store_KEY a k h !!! b) = RESULT (h !!! b).
Proof. unfold store_KEY. rewrite lookup_total_insert. by case_decide; subst. Qed.

Lemma RESULT_store_RESULT a (r : obj V) h b :
  RESULT (store_RESULT a r h !!! b)
  = if decide (a = b) then r else RESULT (h !!! b).
Proof. unfold store_RESULT. rewrite lookup_total_insert. by case_decide; subst. Qed.

Lemma NEXT_store_RESULT a (r : obj V) h b :
  NEXT (store_RESULT a r h !!! b) = NEXT (h !!! b).
Proof. unfold store_RESULT. rewrite lookup_total_insert. by case_decide; subst. Qed.

Lemma PREV_store_RESULT a (r : obj V) h b :
  PREV (store_RESULT a r h !!! b) = PREV (h !!! b).
Proof. unfold store_RESULT. rewrite lookup_total_insert. by case_decide; subst. Qed.

Lemma KEY_store_RESULT a (r : obj V) h b :
  KEY (store_RESULT a r h !!! b) = KEY (h !!! b).
Proof. unfold store_RESULT. rewrite lookup_total_insert. by case_decide; subst. Qed.

(** A store makes no link disappear. *)
Lemma dom_store_PREV a v h : dom (store_PREV a v h) = {[a]} ∪ dom h.
Proof. unfold store_PREV. by rewrite dom_insert_L. Qed.
Lemma dom_store_NEXT a v h : dom (store_NEXT a v h) = {[a]} ∪ dom h.
Proof. unfold store_NEXT. by rewrite dom_insert_L. Qed.
Lemma dom_store_KEY a k h : dom (store_KEY a k h) = {[a]} ∪ dom h.
Proof. unfold store_KEY. by rewrite dom_insert_L. Qed.
Lemma dom_store_RESULT a (r : obj V) h : dom (store_RESULT a r h) = {[a]} ∪ dom h.
Proof. unfold store_RESULT. by rewrite dom_insert_L. Qed.

End Heap.

Create Rewrite HintDb heap.
#[local] Hint Rewrite @NEXT_store_NEXT @PREV_store_NEXT @KEY_store_NEXT
  @RESULT_store_NEXT @PREV_store_PREV @NEXT_store_PREV @KEY_store_PREV
  @RESULT_store_PREV @KEY_store_KEY @NEXT_store_KEY @PREV_store_KEY
  @RESULT_store_KEY @RESULT_store_RESULT @NEXT_store_RESULT
  @PREV_store_RESULT @KEY_store_RESULT : heap.
#[local] Hint Rewrite @dom_store_PREV @dom_store_NEXT @dom_store_KEY
  @dom_store_RESULT : heap.

(** ** Segments of the doubly linked list *)

Section Chain.

Context {V : Type}.
Implicit Types (h : gmap addr (link V)) (ls : list addr).

(** [chain h p ls q]: in [h], [NEXT] leads from [p] through [ls] to [q], and
    [PREV] leads back. *)
Fixpoint chain h (p : addr) ls (q : addr) : Prop :=
  match ls with
  | [] => NEXT (h !!! p) = q ∧ PREV (h !!! q) = p
  | x :: ls' => NEXT (h !!! p) = x ∧ PREV (h !!! x) = p ∧ chain h x ls' q
  end.

Lemma chain_app h p l1 x l2 q :
  chain h p (l1 ++ x :: l2) q ↔ chain h p l1 x ∧ chain h x l2 q.
Proof.
  revert p. induction l1 as [|y l1 IH]; intros p; simpl.
  - tauto.
  - rewrite IH. tauto.
Qed.

Lemma chain_snoc h p ls x q :
  chain h p (ls ++ [x]) q
  ↔ chain h p ls x ∧ NEXT (h !!! x) = q ∧ PREV (h !!! q) = x.
Proof. apply chain_app. Qed.

(** A segment only depends on the [NEXT] fields of its source side and the
    [PREV] fields of its target side. *)
Lemma chain_frame h h' p ls q :
  chain h p ls q →
  (∀ x, x ∈ p :: ls → NEXT (h' !!! x) = NEXT (h !!! x)) →
  (∀ x, x ∈ ls ++ [q] → PREV (h' !!! x) = PREV (h !!! x)) →
  chain h' p ls q.
Proof.
  revert p. induction ls as [|y ls IH]; intros p; simpl.
  - intros [Hn Hp] HN HP. rewrite HN, HP by set_solver. done.
  - intros (Hn & Hp & Hc) HN HP. rewrite HN, HP by set_solver.
    split_and!; [done..|]. apply IH; [done|..]; intros; [apply HN|apply HP];
    set_solver.
Qed.

(** The link before the target of a segment, and the one after its source. *)
Lemma chain_PREV_target h p ls q :
  chain h p ls q → PREV (h !!! q) ∈ p :: ls.
Proof.
  revert p. induction ls as [|y ls IH]; intros p; simpl.
  - intros [_ ->]. set_solver.
  - intros (_ & _ & Hc). apply IH in Hc. set_solver.
Qed.

Lemma chain_NEXT_source h p ls q :
  chain h p ls q → NEXT (h !!! p) ∈ ls ++ [q].
Proof. destruct ls; simpl; [intros [-> _]|intros (-> & _)]; set_solver. Qed.

(** Taking a link out of a segment (lines 110-111). *)
Lemma chain_unlink h h' s l1 a l2 t :
  NoDup (s :: l1 ++ a :: l2) →
  t ∉ l1 ++ a :: l2 →
  chain h s (l1 ++ a :: l2) t →
  NEXT (h' !!! PREV (h !!! a)) = NEXT (h !!! a) →
  PREV (h' !!! NEXT (h !!! a)) = PREV (h !!! a) →
  (∀ x, x ≠ PREV (h !!! a) → NEXT (h' !!! x) = NEXT (h !!! x)) →
  (∀ x, x ≠ NEXT (h !!! a) → PREV (h' !!! x) = PREV (h !!! x)) →
  chain h' s (l1 ++ l2) t.
Proof.
  intros Hnd Ht Hc. pose proof Hc as Hc0.
  apply chain_app in Hc0 as [Hc1 Hc2].
  pose proof (chain_PREV_target _ _ _ _ Hc1) as Hp.
  pose proof (chain_NEXT_source _ _ _ _ Hc2) as Hn.
  revert s Hnd Hc Hc1 Hp.
  induction l1 as [|z l1 IH]; intros s Hnd Hc Hc1 Hp Hpn Hnp HN HP; simpl in *.
  - destruct Hc as (Hsa & Has & Hc). rewrite Has in *.
    destruct l2 as [|y l2]; simpl in *.
    + destruct Hc as [Hat Hta]. rewrite Hat in *. done.
    + destruct Hc as (Hay & Hya & Hc). rewrite Hay in *.
      split_and!; [done..|].
      apply (chain_frame h); [done|..]; intros x Hx; [apply HN|apply HP].
      * apply NoDup_cons in Hnd as [Hs _]. set_solver.
      * apply NoDup_cons in Hnd as [_ Hnd]. apply NoDup_cons in Hnd as [_ Hnd].
        apply NoDup_cons in Hnd as [Hy _]. set_solver.
  - destruct Hc as (Hsz & Hzs & Hc). destruct Hc1 as (_ & _ & Hc1).
    pose proof (chain_PREV_target _ _ _ _ Hc1) as Hp'.
    apply NoDup_cons in Hnd as [Hs Hnd].
    rewrite HN, HP.
    + split_and!; [done..|]. apply IH; try done. set_solver.
    + pose proof Hnd as Hnd'. apply NoDup_cons in Hnd' as [Hz _].
      intros ->. set_solver.
    + intros ->. set_solver.
Qed.

(** Putting a link in front of the target of a segment (lines 112-115 and
    149-151). *)
Lemma chain_push h h' s ls t a :
  NoDup (s :: ls) → a ∉ s :: ls → t ∉ ls →
  chain h s ls t →
  NEXT (h' !!! PREV (h !!! t)) = a →
  PREV (h' !!! a) = PREV (h !!! t) →
  (∀ x, x ≠ PREV (h !!! t) → x ≠ a → NEXT (h' !!! x) = NEXT (h !!! x)) →
  (∀ x, x ≠ t → x ≠ a → PREV (h' !!! x) = PREV (h !!! x)) →
  chain h' s ls a.
Proof.
  revert s. induction ls as [|z ls IH]; intros s Hnd Ha Ht Hc Hla Hal HN HP;
    simpl in *.
  - destruct Hc as [Hst Hts]. rewrite Hts in *. done.
  - destruct Hc as (Hsz & Hzs & Hc).
    pose proof (chain_PREV_target _ _ _ _ Hc) as Hp.
    apply NoDup_cons in Hnd as [Hs Hnd].
    rewrite HN, HP.
    + split_and!; [done..|]. apply IH; try done; set_solver.
    + set_solver.
    + set_solver.
    + intros ->. set_solver.
    + set_solver.
Qed.

(** Walking a segment that ends at the root finds its links. *)
Lemma walk_chain h rt s ls fuel :
  chain h s ls rt → rt ∉ ls → (length ls ≤ fuel)%nat →
  walk h rt fuel (NEXT (h !!! s)) = Some ls.
Proof.
  revert s fuel. induction ls as [|z ls IH]; intros s fuel; simpl.
  - intros [-> _] _ _. destruct fuel; simpl; by rewrite decide_True.
  - intros (-> & _ & Hc) Hrt Hlen. destruct fuel as [|fuel]; [lia|]. simpl.
    rewrite decide_False by set_solver.
    rewrite IH; [done|done|set_solver|lia].
Qed.

End Chain.

(** ** The representation invariant of the bounded cache *)

Section Ring.

Context {V : Type}.
Implicit Types (st : state V) (es : list (addr * dkey)).

(** The dictionary that goes with the links [es] and their keys. *)
Definition entries_map es : gmap dkey (obj V) :=
  list_to_map ((fun e => (e.2, PyLink e.1)) <$> es).

(** [ring st es]: the circular list of [st] is made of the links [es.*1],
    oldest first, which hold the keys [es.*2], and the dictionary maps each
    key to its link and nothing else. *)
Record ring st es : Prop := {
  ring_nodup : NoDup (root st :: es.*1);
  ring_keys_nodup : NoDup es.*2;
  ring_alloc : ∀ a, a ∈ root st :: es.*1 → a ∈ dom (heap st);
  ring_chain : chain (heap st) (root st) es.*1 (root st);
  ring_key : Forall (fun e => KEY (heap st !!! e.1) = Some e.2) es;
  ring_cache : cache st = entries_map es;
  ring_full : full st = true → es ≠ [];
}.

Lemma entries_map_fst es :
  ((fun e : addr * dkey => (e.2, PyLink (V := V) e.1)) <$> es).*1 = es.*2.
Proof. rewrite <-list_fmap_compose. by apply list_fmap_ext. Qed.

Lemma entries_map_lookup es k o :
  NoDup es.*2 →
  entries_map es !! k = Some o ↔ ∃ a, o = PyLink a ∧ (a, k) ∈ es.
Proof.
  intros Hnd. unfold entries_map.
  rewrite <-elem_of_list_to_map by (by rewrite entries_map_fst).
  rewrite list_elem_of_fmap. split.
  - intros ([a k'] & [= -> ->] & Hin). eauto.
  - intros (a & -> & Hin). by exists (a, k).
Qed.

Lemma entries_map_dom es : dom (entries_map es) = list_to_set es.*2.
Proof. unfold entries_map. by rewrite dom_list_to_map_L, entries_map_fst. Qed.

Lemma entries_map_size es : NoDup es.*2 → size (entries_map es) = length es.
Proof.
  intros Hnd. unfold entries_map.
  rewrite map_size_list_to_map by (by rewrite entries_map_fst).
  by rewrite length_fmap.
Qed.

Lemma entries_map_perm es es' :
  NoDup es.*2 → es ≡ₚ es' → entries_map es = entries_map es'.
Proof.
  intros Hnd Hp. unfold entries_map. apply list_to_map_proper.
  - by rewrite entries_map_fst.
  - by rewrite Hp.
Qed.

Lemma entries_map_snoc es a k :
  entries_map (es ++ [(a, k)]) = <[k := PyLink a]> (entries_map es) ∨ k ∈ es.*2.
Proof.
  destruct (decide (k ∈ es.*2)) as [|Hk]; [by right|left].
  unfold entries_map. rewrite fmap_app. simpl.
  rewrite list_to_map_snoc; [done|]. by rewrite entries_map_fst.
Qed.

Lemma move_last_perm {A} (l1 l2 : list A) x :
  l1 ++ l2 ++ [x] ≡ₚ l1 ++ x :: l2.
Proof. f_equiv. symmetry. apply Permutation_cons_append. Qed.

(** The ring only reads four of the closure variables. *)
Lemma ring_ext st st' es :
  cache st' = cache st → full st' = full st → root st' = root st →
  heap st' = heap st → ring st es → ring st' es.
Proof.
  intros Hc Hf Hr Hh [? ? ? ? ? ? ?].
  split; rewrite ?Hc, ?Hf, ?Hr, ?Hh; done.
Qed.

Lemma ring_init : ring (init (V := V)) [].
Proof.
  split; simpl; try done.
  - apply NoDup_singleton.
  - apply NoDup_nil_2.
  - intros a Ha. apply list_elem_of_singleton in Ha as ->.
    rewrite dom_singleton_L. set_solver.
Qed.

Lemma ring_clear st es : ring st es → ring (cache_clear st) [].
Proof.
  intros [? ? Ha ? ? ? ?]. split; simpl; try done.
  - apply NoDup_singleton.
  - apply NoDup_nil_2.
  - intros a Hin. apply list_elem_of_singleton in Hin as ->.
    rewrite dom_insert_L. set_solver.
  - by rewrite !lookup_total_insert_eq.
Qed.

(** A hit: the link moves to the most recently used end. *)
Lemma ring_hit st es key a :
  ring st es → cache st !! key = Some (PyLink a) →
  ∃ l1 l2, es = l1 ++ (a, key) :: l2 ∧
    ring (set_heap (move_to_front (root st) a (heap st)) st)
      (l1 ++ l2 ++ [(a, key)]).
Proof.
  intros [Hnd Hkd Hal Hch Hky Hca Hfu] Hlk.
  rewrite Hca in Hlk. apply entries_map_lookup in Hlk as (a' & [= <-] & Hin);
    [|done].
  apply list_elem_of_split in Hin as (l1 & l2 & ->). exists l1, l2.
  split; [done|].
  rewrite fmap_app, fmap_cons in Hnd, Hch, Hal. simpl in Hnd, Hch, Hal.
  set (h := heap st) in *. set (rt := root st) in *.
  assert (Hrt : rt ∉ l1.*1 ++ a :: l2.*1) by (by apply NoDup_cons in Hnd as []).
  assert (Hmid : (a ∉ l1.*1 ++ l2.*1) ∧ NoDup (l1.*1 ++ l2.*1)).
  { apply NoDup_cons in Hnd as [_ Hnd].
    rewrite <-Permutation_middle in Hnd. by apply NoDup_cons in Hnd. }
  destruct Hmid as [Ha0 Hnd0].
  assert (Hnd' : NoDup (rt :: l1.*1 ++ l2.*1)).
  { apply NoDup_cons. split; [set_solver|done]. }
  assert (Ha : a ∉ rt :: l1.*1 ++ l2.*1) by set_solver.
  unfold move_to_front. fold h.
  set (p := PREV (h !!! a)). set (n := NEXT (h !!! a)).
  set (h1 := store_PREV n p (store_NEXT p n h)).
  assert (Hc1 : chain h1 rt (l1.*1 ++ l2.*1) rt).
  { apply (chain_unlink h h1 rt l1.*1 a l2.*1 rt); try done; unfold h1;
      fold p n; intros; autorewrite with heap; repeat case_decide; done. }
  set (last := PREV (h1 !!! rt)).
  assert (Hlast : last ∈ rt :: l1.*1 ++ l2.*1) by (by eapply chain_PREV_target).
  assert (Hla : a ≠ last) by (intros Heq; apply Ha; by rewrite Heq).
  assert (Hra : a ≠ rt) by set_solver.
  set (h2 := store_NEXT a rt _).
  assert (Hdom : dom h ⊆ dom h2).
  { unfold h2, h1. autorewrite with heap. set_solver. }
  split; simpl; fold h rt.
  - rewrite !fmap_app. simpl. rewrite app_assoc.
    apply NoDup_cons in Hnd' as [Hr Hnd'].
    apply NoDup_cons. split; [set_solver|].
    apply NoDup_app. split_and!; [done| |apply NoDup_singleton].
    intros x Hx Hx'. apply list_elem_of_singleton in Hx' as ->. set_solver.
  - rewrite !fmap_app in *. simpl in *.
    eapply NoDup_Permutation_proper; [|exact Hkd].
    apply move_last_perm.
  - intros x Hx. apply Hdom, Hal. rewrite !fmap_app in Hx. simpl in Hx.
    set_solver.
  - rewrite !fmap_app. simpl. rewrite app_assoc. apply chain_snoc.
    split_and!.
    + apply (chain_push h1 h2 rt _ rt a); try done; [set_solver|..];
        fold last; unfold h2; intros; autorewrite with heap;
        repeat case_decide; done.
    + unfold h2. autorewrite with heap. by rewrite decide_True.
    + unfold h2. autorewrite with heap.
      rewrite decide_False by done. by rewrite decide_True.
  - assert (HK : ∀ x, KEY (h2 !!! x) = KEY (h !!! x)).
    { intros x. unfold h2, h1. by autorewrite with heap. }
    apply Forall_app in Hky as [H1 H2]. apply Forall_cons in H2 as [H2 H3].
    rewrite !Forall_app, Forall_singleton.
    split_and!; [eapply Forall_impl; [exact H1|] |
                 eapply Forall_impl; [exact H3|] | ];
      simpl; intros; by rewrite HK.
  - rewrite Hca. apply entries_map_perm; [done|]. symmetry. apply move_last_perm.
  - intros _. by destruct l1, l2.
Qed.

End Ring.

Section RingStore.

Context {V E : Type}.
Implicit Types (st : state V) (es : list (addr * dkey)).

Lemma ring_absent st es key :
  ring st es → cache st !! key = None → key ∉ es.*2.
Proof.
  intros Hr Hk Hin. apply (not_elem_of_dom (cache st)) in Hk. apply Hk.
  rewrite (ring_cache _ _ Hr), entries_map_dom. set_solver.
Qed.

Lemma ring_size st es : ring st es → size (cache st) = length es.
Proof.
  intros Hr. rewrite (ring_cache _ _ Hr).
  apply entries_map_size, (ring_keys_nodup _ _ Hr).
Qed.

(** A miss stored while the cache is not full: a new link, most recently
    used. *)
Lemma ring_insert n st es key (v : V) :
  ring st es → cache st !! key = None → full st = false →
  ∃ st' a,
    bounded_store (E := E) n key v st = (st', Return (PyVal v)) ∧
    ring st' (es ++ [(a, key)]) ∧
    full st' = bool_decide (n ≤ Z.of_nat (S (length es))) ∧
    hits st' = hits st ∧ misses st' = misses st.
Proof.
  intros Hr Hk Hf. pose proof (ring_absent _ _ _ Hr Hk) as Hkey.
  pose proof (ring_size _ _ Hr) as Hsz.
  destruct Hr as [Hnd Hkd Hal Hch Hky Hca Hfu].
  unfold bounded_store. rewrite Hk, Hf.
  rewrite bool_decide_false by (by intros [? ?]).
  set (h := heap st) in *. set (rt := root st) in *.
  set (a := fresh (dom h)). set (last := PREV (h !!! rt)).
  eexists _, a. split; [reflexivity|].
  assert (Ha : a ∉ rt :: es.*1).
  { intros Hin. apply Hal in Hin. by apply is_fresh in Hin. }
  assert (Hrt : rt ∉ es.*1) by (by apply NoDup_cons in Hnd as []).
  assert (Hlast : last ∈ rt :: es.*1) by (by eapply chain_PREV_target).
  assert (Hla : last ≠ a) by (intros Heq; apply Ha; by rewrite <-Heq).
  assert (Hra : rt ≠ a) by set_solver.
  set (h0 := <[a := _]> h). set (h2 := store_PREV rt a _).
  assert (HN : ∀ x, NEXT (h2 !!! x)
    = if decide (last = x) then a
      else if decide (a = x) then rt else NEXT (h !!! x)).
  { intros x. unfold h2, h0. autorewrite with heap.
    rewrite lookup_total_insert. by repeat case_decide. }
  assert (HP : ∀ x, PREV (h2 !!! x)
    = if decide (rt = x) then a
      else if decide (a = x) then last else PREV (h !!! x)).
  { intros x. unfold h2, h0. autorewrite with heap.
    rewrite lookup_total_insert. by repeat case_decide. }
  assert (HK : ∀ x, KEY (h2 !!! x)
    = if decide (a = x) then Some key else KEY (h !!! x)).
  { intros x. unfold h2, h0. autorewrite with heap.
    rewrite lookup_total_insert. by repeat case_decide. }
  split_and!; simpl; try done.
  - split; simpl; fold h rt.
    + rewrite fmap_app. simpl. apply NoDup_cons in Hnd as [_ Hnd].
      apply NoDup_cons. split; [set_solver|].
      apply NoDup_app. split_and!; [done| |apply NoDup_singleton].
      intros x Hx Hx'. apply list_elem_of_singleton in Hx' as ->. set_solver.
    + rewrite fmap_app. simpl.
      apply NoDup_app. split_and!; [done| |apply NoDup_singleton].
      intros x Hx Hx'. apply list_elem_of_singleton in Hx' as ->. done.
    + intros x Hx. rewrite fmap_app in Hx. simpl in Hx.
      unfold h2, h0. autorewrite with heap. rewrite dom_insert_L.
      destruct (decide (x = a)) as [->|]; [set_solver|].
      assert (x ∈ dom h) by (apply Hal; set_solver). set_solver.
    + rewrite fmap_app. simpl. apply chain_snoc. split_and!.
      * apply (chain_push h h2 rt _ rt a); try done; fold last; intros;
          rewrite ?HN, ?HP; repeat case_decide; done.
      * rewrite HN. by repeat case_decide.
      * rewrite HP. by repeat case_decide.
    + rewrite Forall_app, Forall_singleton. split.
      * apply Forall_forall. intros [x k] Hx. simpl.
        rewrite HK, decide_False.
        { by apply (proj1 (Forall_forall _ _) Hky (x, k)). }
        intros <-. apply Ha. right. apply list_elem_of_fmap.
        by exists (a, k).
      * simpl. rewrite HK. by rewrite decide_True.
    + rewrite Hca. by destruct (entries_map_snoc (V := V) es a key) as [->|].
    + intros _. by destruct es.
  - rewrite map_size_insert_None by done. by rewrite Hsz.
Qed.

(** A miss stored while the cache is full: the root takes the new key and
    becomes the most recently used link, the oldest link becomes the root,
    and its key leaves the dictionary. *)
Lemma ring_evict n st es key (v : V) :
  ring st es → cache st !! key = None → full st = true →
  ∃ st' x kx es',
    es = (x, kx) :: es' ∧
    bounded_store (E := E) n key v st = (st', Return (PyVal v)) ∧
    ring st' (es' ++ [(root st, key)]) ∧
    full st' = true ∧ hits st' = hits st ∧ misses st' = misses st.
Proof.
  intros Hr Hk Hf. pose proof (ring_absent _ _ _ Hr Hk) as Hkey.
  destruct Hr as [Hnd Hkd Hal Hch Hky Hca Hfu].
  destruct es as [|[x kx] es']; [by destruct (Hfu Hf)|].
  simpl in *. destruct Hch as (Hrx & Hxr & Hch).
  apply Forall_cons in Hky as [Hkx Hky]. simpl in Hkx.
  apply NoDup_cons in Hnd as [Hrt Hnd]. apply NoDup_cons in Hnd as [Hx Hnd].
  apply NoDup_cons in Hkd as [Hkx' Hkd].
  assert (Hxr' : root st ≠ x) by set_solver.
  assert (Hcx : cache st !! kx = Some (PyLink x)).
  { rewrite Hca. apply entries_map_lookup; [by apply NoDup_cons|].
    exists x. split; [done|]. left. }
  unfold bounded_store. rewrite Hk, Hf.
  rewrite bool_decide_false by (by intros [? ?]).
  set (h := heap st) in *. set (rt := root st) in *.
  autorewrite with heap. rewrite Hrx. autorewrite with heap.
  rewrite !decide_False by done. rewrite Hkx. simpl. rewrite Hcx.
  rewrite bool_decide_true by done.
  eexists _, x, kx, es'. split; [done|]. split; [reflexivity|].
  set (h4 := store_RESULT x PyNone _).
  assert (HN : ∀ y, NEXT (h4 !!! y) = NEXT (h !!! y)).
  { intros y. unfold h4. by autorewrite with heap. }
  assert (HP : ∀ y, PREV (h4 !!! y) = PREV (h !!! y)).
  { intros y. unfold h4. by autorewrite with heap. }
  assert (HK : ∀ y, KEY (h4 !!! y)
    = if decide (x = y) then None
      else if decide (rt = y) then Some key else KEY (h !!! y)).
  { intros y. unfold h4. by autorewrite with heap. }
  split_and!; simpl; try done.
  split; simpl.
  - rewrite fmap_app. simpl.
    apply NoDup_cons. split; [set_solver|].
    apply NoDup_app. split_and!; [done| |apply NoDup_singleton].
    intros y Hy Hy'. apply list_elem_of_singleton in Hy' as ->. set_solver.
  - rewrite fmap_app. simpl.
    apply NoDup_app. split_and!; [done| |apply NoDup_singleton].
    intros y Hy Hy'. apply list_elem_of_singleton in Hy' as ->. set_solver.
  - intros y Hy. rewrite fmap_app in Hy. simpl in Hy.
    assert (y ∈ dom h) by (apply Hal; set_solver).
    unfold h4. autorewrite with heap. set_solver.
  - rewrite fmap_app. simpl. apply chain_snoc. rewrite HN, HP.
    split_and!; [|done..].
    apply (chain_frame h); [done|..]; intros; by rewrite ?HN, ?HP.
  - rewrite Forall_app, Forall_singleton. split.
    + apply Forall_forall. intros [y k] Hy. simpl.
      assert (y ∈ es'.*1) by (apply list_elem_of_fmap; by exists (y, k)).
      rewrite HK, !decide_False by set_solver.
      by apply (proj1 (Forall_forall _ _) Hky (y, k)).
    + simpl. rewrite HK, decide_False by done. by rewrite decide_True.
  - rewrite Hca. unfold entries_map at 1. simpl.
    rewrite delete_insert_id.
    + destruct (entries_map_snoc (V := V) es' rt key) as [->|]; [done|].
      set_solver.
    + apply not_elem_of_list_to_map_1. by rewrite entries_map_fst.
  - intros _. by destruct es'.
Qed.

End RingStore.

(** ** What the two critical sections of the bounded cache do *)

Section Bounded.

Context {V E : Type}.
Implicit Types (st : state V) (es : list (addr * dkey)).

(** Under a positive capacity the [full] flag says whether the capacity is
    reached, and it is never exceeded. *)
Definition cap (n : Z) st es : Prop :=
  0 < n →
  full st = bool_decide (n ≤ Z.of_nat (length es)) ∧ Z.of_nat (length es) ≤ n.

Lemma ring_present st es key :
  ring st es → (is_Some (cache st !! key) ↔ key ∈ es.*2).
Proof.
  intros Hr. rewrite <-elem_of_dom, (ring_cache _ _ Hr), entries_map_dom.
  set_solver.
Qed.

Lemma bounded_store_cases n st es key (v : V) :
  ring st es → cap n st es →
  ∃ st' es',
    bounded_store (E := E) n key v st = (st', Return (PyVal v)) ∧
    ring st' es' ∧ cap n st' es' ∧
    hits st' = hits st ∧ misses st' = misses st ∧
    es'.*2 = (if bool_decide (key ∈ es.*2) then es.*2
              else if full st then tail es.*2 ++ [key] else es.*2 ++ [key]).
Proof.
  intros Hr Hcap. destruct (decide (key ∈ es.*2)) as [Hin|Hin].
  - exists st, es. rewrite bool_decide_true by done.
    unfold bounded_store. rewrite bool_decide_true; [done|].
    by apply (ring_present _ es).
  - rewrite bool_decide_false by done.
    assert (Hk : cache st !! key = None).
    { apply eq_None_not_Some. by rewrite (ring_present _ es). }
    destruct (full st) eqn:Hf.
    + destruct (ring_evict (E := E) n _ _ _ v Hr Hk Hf)
        as (st' & x & kx & es' & -> & Hst & Hr' & Hf' & Hh & Hm).
      exists st', (es' ++ [(root st, key)]).
      split_and!; try done.
      * intros Hn. destruct (Hcap Hn) as [Hfull Hle]. rewrite Hf'.
        rewrite Hf in Hfull. symmetry in Hfull.
        apply bool_decide_eq_true in Hfull. rewrite length_app. simpl in *.
        split; [symmetry; apply bool_decide_eq_true|]; lia.
      * by rewrite fmap_app.
    + destruct (ring_insert (E := E) n _ _ _ v Hr Hk Hf)
        as (st' & a & Hst & Hr' & Hf' & Hh & Hm).
      exists st', (es ++ [(a, key)]).
      split_and!; try done.
      * intros Hn. destruct (Hcap Hn) as [Hfull Hle]. rewrite Hf'.
        rewrite length_app. simpl. rewrite Nat.add_1_r. split; [done|].
        rewrite Hf in Hfull. symmetry in Hfull.
        apply bool_decide_eq_false in Hfull. lia.
      * by rewrite fmap_app.
Qed.

Lemma wrapper_bounded_cases n typed st es args kwds :
  ring st es → cap n st es →
  let key := make_key args kwds typed in
  ((key ∈ es.*2) ∧ ∃ a l1 l2 st',
     es = l1 ++ (a, key) :: l2 ∧
     wrapper_bounded (E := E) n typed st args kwds
       = Done st' (Return (RESULT (heap st !!! a))) ∧
     ring st' (l1 ++ l2 ++ [(a, key)]) ∧ cap n st' (l1 ++ l2 ++ [(a, key)]) ∧
     cache st' = cache st ∧
     hits st' = hits st + 1 ∧ misses st' = misses st)
  ∨ ((key ∉ es.*2) ∧
     wrapper_bounded (E := E) n typed st args kwds
       = Await (set_misses (misses st + 1) st) args kwds
           (bounded_store n key)).
Proof.
  intros Hr Hcap key. unfold wrapper_bounded. fold key.
  destruct (cache st !! key) as [o|] eqn:Hk.
  - left. pose proof Hk as Hk'. rewrite (ring_cache _ _ Hr) in Hk'.
    apply entries_map_lookup in Hk' as (a & -> & Hin);
      [|apply (ring_keys_nodup _ _ Hr)].
    destruct (ring_hit _ _ _ _ Hr Hk) as (l1 & l2 & -> & Hr').
    split. { apply (ring_present _ _ _ Hr). by rewrite Hk. }
    eexists a, l1, l2, _. split_and!; [done|reflexivity|..]; simpl; try done.
    + eapply ring_ext; [..|exact Hr']; done.
    + intros Hn. destruct (Hcap Hn) as [Hfull Hle]. simpl.
      rewrite !length_app in *. simpl in *.
      rewrite Hfull. split; [f_equal|]; try lia.
      apply bool_decide_ext. lia.
  - right. split; [|done]. rewrite <-(ring_present _ _ _ Hr), Hk.
    by intros [? ?].
Qed.

End Bounded.

(** ** Every reachable configuration satisfies the invariant *)

Section Invariant.

Context {V E : Type}.
Variable maxsize : option Z.
Variable typed : bool.
Implicit Types (st : state V) (es : list (addr * dkey)).

(** With an integer [maxsize] the list and the dictionary go together (and
    stay empty if it is zero); with [maxsize = None] the dictionary holds
    the results themselves and the list stays empty. *)
Definition inv st : Prop :=
  match maxsize with
  | Some n => ∃ es, ring st es ∧ cap n st es ∧ (n = 0 → es = [])
  | None => ∃ es, ring (set_cache ∅ st) es ∧ es = []
  end.

(** What a suspended call does when it is resumed. *)
Definition resumes (resume : V → state V → state V * outcome V E) : Prop :=
  match maxsize with
  | Some n =>
      if decide (n = 0) then resume = (fun v st => (st, Return (PyVal v)))
      else ∃ key, resume = bounded_store n key
  | None => ∃ key, resume = unbounded_store key
  end.

Definition sys_inv (c : config (V := V) (E := E)) : Prop :=
  inv c.1 ∧ Forall resumes c.2.

Lemma wrapper_await st args kwds st' args' kwds' resume :
  wrapper maxsize typed st args kwds = Await st' args' kwds' resume →
  st' = set_misses (misses st + 1) st ∧ args' = args ∧ kwds' = kwds ∧
  resumes resume.
Proof.
  unfold wrapper, resumes. destruct maxsize as [n|].
  - destruct (decide (n = 0)) as [->|Hn].
    + unfold wrapper_zero. by intros [= <- <- <- <-].
    + unfold wrapper_bounded.
      destruct (cache st !! _) as [[| |]|]; intros [= <- <- <- <-]; eauto.
  - unfold wrapper_unbounded.
    destruct (cache st !! _); intros [= <- <- <- <-]; eauto.
Qed.

Lemma inv_set_misses st m : inv st → inv (set_misses m st).
Proof.
  unfold inv. destruct maxsize; intros (es & Hr & H); exists es;
    (split; [by eapply ring_ext; [..|exact Hr]|done]).
Qed.

Lemma inv_wrapper_done st args kwds st' (o : outcome V E) :
  inv st → wrapper maxsize typed st args kwds = Done st' o → inv st'.
Proof.
  unfold wrapper, inv. destruct maxsize as [n|].
  - destruct (decide (n = 0)) as [->|Hn]; [done|].
    intros (es & Hr & Hc & _) Hw.
    destruct (wrapper_bounded_cases (E := E) n typed st es args kwds Hr Hc)
      as [(_ & a & l1 & l2 & st1 & -> & Hw' & Hr' & Hc' & _)|[_ Hw']];
      rewrite Hw' in Hw; [|done].
    injection Hw as <- _. eexists. split_and!; [exact Hr'|exact Hc'|done].
  - unfold wrapper_unbounded. destruct (cache st !! _); [|done].
    intros (es & Hr & ->) [= <- _]. exists []. split; [|done].
    by eapply ring_ext; [..|exact Hr].
Qed.

Lemma inv_resume st resume v : inv st → resumes resume → inv (resume v st).1.
Proof.
  unfold inv, resumes. destruct maxsize as [n|].
  - destruct (decide (n = 0)) as [->|Hn]; [by intros ? ->|].
    intros (es & Hr & Hc & _) [key ->].
    destruct (bounded_store_cases (E := E) n st es key v Hr Hc)
      as (st' & es' & -> & Hr' & Hc' & _).
    exists es'. by split_and!.
  - intros (es & Hr & ->) [key ->]. exists []. split; [|done].
    by eapply ring_ext; [..|exact Hr].
Qed.

Lemma inv_init : inv init.
Proof.
  unfold inv. destruct maxsize as [n|]; exists [].
  - split; [apply ring_init|]. split; [|done].
    intros Hn. simpl. split; [|lia]. by rewrite bool_decide_false by lia.
  - split; [apply ring_init|done].
Qed.

Lemma inv_clear st : inv st → inv (cache_clear st).
Proof.
  unfold inv. destruct maxsize as [n|]; intros (es & Hr & _); exists [].
  - split; [by eapply ring_clear|]. split; [|done].
    intros Hn. simpl. split; [|lia]. by rewrite bool_decide_false by lia.
  - split; [|done]. apply (ring_clear _ _ Hr).
Qed.

Lemma sys_inv_step c c' : sys_inv c → step maxsize typed c c' → sys_inv c'.
Proof.
  intros [Hi Hp] Hs. destruct Hs as [c c' Hs|st pending].
  - destruct Hs as [st pending args kwds st' o Hw
                   |st pending args kwds st' args' kwds' resume Hw
                   |st p1 resume p2 v|st p1 resume p2]; simpl in *.
    + split; [by eapply inv_wrapper_done|done].
    + apply wrapper_await in Hw as (-> & _ & _ & Hres).
      split; [by apply inv_set_misses|]. by apply Forall_cons.
    + apply Forall_app in Hp as [H1 H2]. apply Forall_cons in H2 as [H2 H3].
      split; [by apply inv_resume|]. by apply Forall_app.
    + apply Forall_app in Hp as [H1 H2]. apply Forall_cons in H2 as [H2 H3].
      split; [done|]. by apply Forall_app.
  - split; [by apply inv_clear|done].
Qed.

Lemma reachable_sys_inv c : reachable maxsize typed c → sys_inv c.
Proof.
  unfold reachable. intros Hc.
  eapply (rtc_ind_r (R := step maxsize typed) sys_inv (init, []));
    [|intros c1 c2 _ Hs IH|exact Hc].
  - split; [apply inv_init|by apply Forall_nil].
  - by eapply sys_inv_step.
Qed.

End Invariant.

(** ** The list and the dictionary *)

Section ListAndDict.

Context {V : Type}.
Implicit Types (st : state V) (es : list (addr * dkey)).

(** The keys found by walking the list from the root are the keys of the
    dictionary, and the list is as long as the dictionary is large. *)
Definition list_matches_dict st : Prop :=
  ∃ ks, ring_keys st = Some (Some <$> ks) ∧
        list_to_set ks = dom (cache st) ∧
        length ks = size (cache st).

Lemma ring_links_ring st es : ring st es → ring_links st = Some es.*1.
Proof.
  intros Hr. unfold ring_links.
  apply walk_chain; [apply (ring_chain _ _ Hr)| |].
  - pose proof (ring_nodup _ _ Hr) as Hnd. by apply NoDup_cons in Hnd as [].
  - pose proof (ring_nodup _ _ Hr) as Hnd.
    assert (Hsub : list_to_set (C := gset addr) (root st :: es.*1)
                   ⊆ dom (heap st)).
    { intros x Hx. apply elem_of_list_to_set in Hx.
      by apply (ring_alloc _ _ Hr). }
    apply subseteq_size in Hsub.
    rewrite size_list_to_set, size_dom in Hsub by done. simpl in Hsub. lia.
Qed.

Lemma ring_keys_ring st es : ring st es → ring_keys st = Some (Some <$> es.*2).
Proof.
  intros Hr. unfold ring_keys. rewrite (ring_links_ring _ _ Hr). simpl.
  f_equal. pose proof (ring_key _ _ Hr) as Hk. clear Hr.
  induction Hk as [|[a k] es' Hk Hes IH]; [done|]. csimpl in *.
  by rewrite Hk, IH.
Qed.

Lemma ring_list_matches_dict st es : ring st es → list_matches_dict st.
Proof.
  intros Hr. exists es.*2. split_and!.
  - by apply ring_keys_ring.
  - by rewrite (ring_cache _ _ Hr), entries_map_dom.
  - by rewrite (ring_size _ _ Hr), length_fmap.
Qed.

End ListAndDict.

(** ** Calls made in sequence are executions of the system *)

Section Sequential.

Context {V E : Type}.
Variable user_function : list pyval → list (string * pyval) → V + E.
Variable maxsize : option Z.
Variable typed : bool.

Lemma reachable_call st (pending : list (V → state V → state V * outcome V E))
    args kwds :
  reachable maxsize typed (st, pending) →
  reachable maxsize typed
    ((call user_function maxsize typed st args kwds).1.1, pending).
Proof.
  unfold reachable, call. intros Hc.
  destruct (wrapper maxsize typed st args kwds)
    as [st' o|st' args' kwds' resume] eqn:Hw.
  - eapply rtc_r; [exact Hc|]. apply step_call. by eapply step_done.
  - eapply rtc_r.
    + eapply rtc_r; [exact Hc|]. apply step_call. by eapply step_await.
    + apply step_call. destruct (user_function args' kwds') as [v|e]; simpl.
      * apply (step_resume _ _ st' [] resume pending v).
      * apply (step_fail _ _ st' [] resume pending).
Qed.

Lemma reachable_run_calls st
    (pending : list (V → state V → state V * outcome V E)) calls :
  reachable maxsize typed (st, pending) →
  reachable maxsize typed
    ((run_calls user_function maxsize typed st calls).1.1, pending).
Proof.
  revert st. induction calls as [|c calls IH]; intros st Hc; [done|].
  simpl. apply (reachable_call _ _ c.1 c.2) in Hc.
  destruct (call _ _ _ _ _ _) as [[st1 o] n]. simpl in Hc.
  apply IH in Hc. by destruct (run_calls _ _ _ _ _) as [[st2 os] m].
Qed.

End Sequential.

(** ** The claims *)

(** C4, as stated, fails for [maxsize = None]: there the dictionary holds
    the results and the list stays empty.  After one call the dictionary has
    one key and the walk from the root finds none. *)
Lemma list_matches_dict_unbounded_counterexample :
  let st := (call (V := Z) (E := unit) (fun _ _ => inl 10) None false init
               [PyInt 1] []).1.1 in
  reachable (E := unit) None false (st, []) ∧ ¬ list_matches_dict st.
Proof.
  split.
  - apply reachable_call. apply rtc_refl.
  - intros (ks & Hk & _ & Hl). destruct ks as [|k ks].
    + vm_compute in Hl. discriminate.
    + vm_compute in Hk. discriminate.
Qed.

(** C4 (amended): with an integer [maxsize] (the bounded cache, and the
    cache of capacity zero), in every configuration reachable by any
    sequence of calls, interleaved at their [await] in any way, and clears,
    the keys found by walking the circular list from the root are exactly
    the keys of the dictionary, and the list is as long as the dictionary is
    large. *)
Theorem list_matches_dict_reachable {V E : Type} (n : Z) (typed : bool)
    (c : config (V := V) (E := E)) :
  reachable (Some n) typed c → list_matches_dict c.1.
Proof.
  intros Hc. apply reachable_sys_inv in Hc as [(es & Hr & _) _].
  by eapply ring_list_matches_dict.
Qed.

Lemma list_matches_dict_reachable_witness :
  let st := (run_calls (V := Z) (E := unit) (fun _ _ => inl 10) (Some 2)
               false init
               [([PyInt 1], []); ([PyInt 2], []); ([PyInt 3], [])]).1.1 in
  reachable (E := unit) (Some 2) false (st, []) ∧ list_matches_dict st.
Proof.
  exact ((fun (st : state Z)
              (H : reachable (E := unit) (Some 2) false (st, [])) =>
            conj H (list_matches_dict_reachable 2 false (st, []) H
                    : list_matches_dict st))
           _ (reachable_run_calls (E := unit) (fun _ _ => inl 10) (Some 2)
                false init []
                [([PyInt 1], []); ([PyInt 2], []); ([PyInt 3], [])]
                (rtc_refl _ _))).
Defined.

(** *** Statistics never decrease *)

Section Monotone.

Context {V E : Type}.
Variable maxsize : option Z.
Variable typed : bool.
Implicit Types (st : state V).

(** Each of the four statistics is at least what it was. *)
Definition stats_le (i j : CacheInfo) : Prop :=
  ci_hits i ≤ ci_hits j ∧ ci_misses i ≤ ci_misses j ∧
  ci_maxsize i = ci_maxsize j ∧ ci_currsize i ≤ ci_currsize j.

Lemma stats_le_trans i j k : stats_le i j → stats_le j k → stats_le i k.
Proof.
  unfold stats_le. intros (? & ? & ? & ?) (? & ? & ? & ?).
  split_and!; [lia|lia|congruence|lia].
Qed.

Lemma bounded_store_stats n key (v : V) st :
  stats_le (cache_info maxsize st)
    (cache_info maxsize (bounded_store (E := E) n key v st).1).
Proof.
  unfold bounded_store, stats_le.
  destruct (bool_decide (is_Some (cache st !! key))) eqn:Hk; simpl.
  { split_and!; [lia|lia|done|lia]. }
  apply bool_decide_eq_false in Hk. apply eq_None_not_Some in Hk.
  destruct (full st).
  - destruct (KEY _) as [k|]; simpl; [|split_and!; [lia|lia|done|lia]].
    destruct (bool_decide (is_Some (cache st !! k))) eqn:Hk'; simpl;
      [|split_and!; [lia|lia|done|lia]].
    apply bool_decide_eq_true in Hk'.
    rewrite map_size_insert_None.
    + rewrite map_size_delete_Some by done.
      assert (size (cache st) ≠ 0%nat).
      { intros H0. apply map_size_empty_inv in H0. rewrite H0 in Hk'.
        rewrite lookup_empty in Hk'. by destruct Hk'. }
      split_and!; [lia|lia|done|lia].
    + rewrite lookup_delete_None. by right.
  - simpl. rewrite map_size_insert_None by done.
    split_and!; [lia|lia|done|lia].
Qed.

Lemma resumes_stats resume (v : V) st :
  resumes (E := E) maxsize resume →
  stats_le (cache_info maxsize st) (cache_info maxsize (resume v st).1).
Proof.
  unfold resumes. destruct maxsize as [n|] eqn:Hm.
  - destruct (decide (n = 0)) as [->|Hn].
    + intros ->. simpl. unfold stats_le. split_and!; [lia|lia|done|lia].
    + intros [key ->]. rewrite <-Hm. apply bounded_store_stats.
  - intros [key ->]. unfold unbounded_store, stats_le. simpl.
    pose proof (map_size_insert key (PyVal v) (cache st)) as Hs.
    destruct (cache st !! key); simpl in Hs; rewrite Hs;
      split_and!; try done; lia.
Qed.

Lemma wrapper_done_stats st args kwds st' (o : outcome V E) :
  wrapper maxsize typed st args kwds = Done st' o →
  stats_le (cache_info maxsize st) (cache_info maxsize st').
Proof.
  unfold wrapper, stats_le. destruct maxsize as [n|].
  - destruct (decide (n = 0)) as [->|Hn]; [done|].
    unfold wrapper_bounded.
    destruct (cache st !! _) as [[| |]|]; intros [= <- _]; simpl;
      split_and!; try done; lia.
  - unfold wrapper_unbounded.
    destruct (cache st !! _); intros [= <- _]; simpl;
      split_and!; try done; lia.
Qed.

Lemma set_misses_stats st :
  stats_le (cache_info maxsize st)
    (cache_info maxsize (set_misses (misses st + 1) st)).
Proof. unfold stats_le. simpl. split_and!; try done; lia. Qed.

Lemma call_stats (user_function : list pyval → list (string * pyval) → V + E)
    st args kwds :
  stats_le (cache_info maxsize st)
    (cache_info maxsize
       (call user_function maxsize typed st args kwds).1.1).
Proof.
  unfold call.
  destruct (wrapper maxsize typed st args kwds)
    as [st' o|st' args' kwds' resume] eqn:Hw; simpl.
  - by eapply wrapper_done_stats.
  - apply wrapper_await in Hw as (-> & -> & -> & Hres).
    destruct (user_function args kwds) as [v|e]; simpl.
    + eapply stats_le_trans; [apply set_misses_stats|].
      by apply resumes_stats.
    + apply set_misses_stats.
Qed.

End Monotone.

(** C9: from every reachable configuration, no step of a call (its start
    up to the [return] or the [await], its resumption after the [await], its
    end at the [await] by an exception) and no call awaited to its end
    decreases the hit count, the miss count, the configured capacity or the
    current size reported by [cache_info]. *)
Theorem statistics_monotone {V E : Type} (maxsize : option Z) (typed : bool)
    (c : config (V := V) (E := E)) :
  reachable maxsize typed c →
  (∀ c', call_step maxsize typed c c' →
     stats_le (cache_info maxsize c.1) (cache_info maxsize c'.1)) ∧
  (∀ (user_function : list pyval → list (string * pyval) → V + E) args kwds,
     stats_le (cache_info maxsize c.1)
       (cache_info maxsize
          (call user_function maxsize typed c.1 args kwds).1.1)).
Proof.
  intros Hc. apply reachable_sys_inv in Hc as [_ Hp]. split.
  - intros c' Hs.
    destruct Hs as [st pending args kwds st' o Hw
                   |st pending args kwds st' args' kwds' resume Hw
                   |st p1 resume p2 v|st p1 resume p2]; simpl in *.
    + by eapply wrapper_done_stats.
    + apply wrapper_await in Hw as (-> & _). apply set_misses_stats.
    + apply Forall_app in Hp as [_ Hp]. apply Forall_cons in Hp as [Hp _].
      by apply resumes_stats.
    + unfold stats_le. split_and!; try done; lia.
  - intros. apply call_stats.
Qed.

Lemma statistics_monotone_witness :
  let c : config (V := Z) (E := unit) := (init, []) in
  reachable (Some 2) false c ∧
  stats_le (cache_info (Some 2) c.1)
    (cache_info (Some 2)
       (call (E := unit) (fun _ _ => inl 10) (Some 2) false c.1
          [PyInt 1] []).1.1).
Proof.
  split; [apply rtc_refl|].
  exact (proj2 (statistics_monotone (Some 2) false (init, []) (rtc_refl _ _))
           (fun _ _ => inl 10) [PyInt 1] []).
Defined.

(** *** Resetting the statistics *)

(** What C8 asks of a reset operation [op]: the counters are zero
    afterwards, the dictionary and the list are what they were. *)
Definition resets_statistics_only {V : Type} (op : state V → state V)
    (st : state V) : Prop :=
  hits (op st) = 0 ∧ misses (op st) = 0 ∧
  cache (op st) = cache st ∧ ring_keys (op st) = ring_keys st.

(** C8, as stated, fails: the only operation of the cache that zeroes the
    counters is [cache_clear], and it empties the dictionary and the list
    too.  After one call of a cache of capacity 2, [cache_clear] does not
    leave the stored entry in place. *)
Lemma cache_clear_counterexample :
  let st := (call (V := Z) (E := unit) (fun _ _ => inl 10) (Some 2) false init
               [PyInt 1] []).1.1 in
  ¬ resets_statistics_only cache_clear st.
Proof.
  intros st (_ & _ & Hc & _).
  assert (Hs : size (cache (cache_clear st)) = size (cache st)) by (by rewrite Hc).
  vm_compute in Hs. discriminate.
Qed.

(** C8 (amended): the cache exposes [cache_clear], which sets the hit and
    miss counters to zero, empties the dictionary, resets the list to the
    root alone and the full flag to false, and leaves the capacity
    unchanged. *)
Theorem cache_clear_spec {V : Type} (maxsize : option Z) (st : state V) :
  hits (cache_clear st) = 0 ∧ misses (cache_clear st) = 0 ∧
  cache (cache_clear st) = ∅ ∧ full (cache_clear st) = false ∧
  root (cache_clear st) = root st ∧
  ring_keys (cache_clear st) = Some [] ∧
  cache_info maxsize (cache_clear st) = mkCacheInfo 0 0 maxsize 0.
Proof.
  split_and!; try done.
  unfold ring_keys, ring_links. simpl. rewrite lookup_total_insert_eq. simpl.
  destruct (size _); simpl; by rewrite decide_True.
Qed.

(** *** A key stored while its computation was awaited *)

Section Race.

Context {V E : Type}.

(** Two calls with the same arguments on a fresh cache of integer capacity
    [n]: both reach their [await] before either is resumed; then the first
    is resumed with [v1] and the second with [v2].  The state and the
    outcome after each resumption. *)
Definition race (n : Z) (typed : bool) (args : list pyval)
    (kwds : list (string * pyval)) (v1 v2 : V)
    : option (state V * outcome V E * state V * outcome V E) :=
  match wrapper (Some n) typed init args kwds with
  | Await s1 _ _ resume1 =>
      match wrapper (Some n) typed s1 args kwds with
      | Await s2 _ _ resume2 =>
          let '(s3, o1) := resume1 v1 s2 in
          let '(s4, o2) := resume2 v2 s3 in
          Some (s3, o1, s4, o2)
      | Done _ _ => None
      end
  | Done _ _ => None
  end.

Lemma bounded_store_present n key (v : V) (st : state V) :
  is_Some (cache st !! key) →
  bounded_store (E := E) n key v st = (st, Return (PyVal v)).
Proof. intros Hk. unfold bounded_store. by rewrite bool_decide_true. Qed.

Lemma wrapper_bounded_miss n typed (st : state V) args kwds :
  n ≠ 0 → cache st !! make_key args kwds typed = None →
  wrapper (E := E) (Some n) typed st args kwds
  = Await (set_misses (misses st + 1) st) args kwds
      (bounded_store n (make_key args kwds typed)).
Proof.
  intros Hn Hk. unfold wrapper. rewrite decide_False by done.
  unfold wrapper_bounded. by rewrite Hk.
Qed.

Lemma race_outcome n typed args kwds (v1 v2 : V) :
  n ≠ 0 →
  ∃ s a,
    race n typed args kwds v1 v2
      = Some (s, Return (PyVal v1), s, Return (PyVal v2)) ∧
    cache s = {[ make_key args kwds typed := PyLink a ]} ∧
    RESULT (heap s !!! a) = PyVal v1.
Proof.
  intros Hn. unfold race.
  rewrite wrapper_bounded_miss by done.
  rewrite wrapper_bounded_miss by done.
  set (key := make_key args kwds typed).
  set (s2 := set_misses _ (set_misses _ _)).
  destruct (bounded_store (E := E) n key v1 s2) as [s3 o1] eqn:H1.
  unfold bounded_store in H1. simpl in H1. rewrite lookup_empty in H1.
  rewrite bool_decide_false in H1 by (by intros [? ?]).
  injection H1 as <- <-.
  rewrite bounded_store_present
    by (simpl; rewrite lookup_insert_eq; by eexists).
  eexists _, _. split; [reflexivity|]. simpl. split; [done|].
  autorewrite with heap. rewrite lookup_total_insert_eq. simpl.
  repeat case_decide; done.
Qed.

End Race.

(** C10: in the bounded cache, a call that finds its key in the dictionary
    when it is resumed after the [await] returns the result it computed
    itself and leaves the state (dictionary, list, full flag, counters) as it
    is; and when two calls with the same arguments both await on a fresh
    cache, and their computations return [v1] and [v2], the first gets [v1],
    the second gets [v2], and the one entry of the dictionary holds [v1]. *)
Theorem store_of_present_key {V E : Type} (n : Z) (key : dkey) (v : V)
    (st : state V) (typed : bool) (args : list pyval)
    (kwds : list (string * pyval)) (v1 v2 : V) :
  is_Some (cache st !! key) → n ≠ 0 →
  bounded_store (E := E) n key v st = (st, Return (PyVal v)) ∧
  ∃ s a,
    race (E := E) n typed args kwds v1 v2
      = Some (s, Return (PyVal v1), s, Return (PyVal v2)) ∧
    cache s = {[ make_key args kwds typed := PyLink a ]} ∧
    RESULT (heap s !!! a) = PyVal v1.
Proof.
  intros Hk Hn. split; [by apply bounded_store_present|by apply race_outcome].
Qed.

Lemma store_of_present_key_witness :
  let st := (call (V := Z) (E := unit) (fun _ _ => inl 10) (Some 2) false init
               [PyInt 1] []).1.1 in
  let key := make_key [PyInt 1] [] false in
  is_Some (cache st !! key) ∧
  bounded_store (E := unit) 2 key 20 st = (st, Return (PyVal 20)).
Proof.
  assert (H : is_Some (cache (call (V := Z) (E := unit) (fun _ _ => inl 10)
                 (Some 2) false init [PyInt 1] []).1.1
               !! make_key [PyInt 1] [] false)).
  { vm_compute. by eexists. }
  split; [exact H|].
  refine (proj1 (store_of_present_key (E := unit) 2 _ 20 _ false [PyInt 1] []
                   10 20 H _)).
  lia.
Defined.

(** *** Capacity zero *)

Section Zero.

Context {V E : Type}.
Variable user_function : list pyval → list (string * pyval) → V + E.
Variable typed : bool.

Lemma call_zero (st : state V) args kwds :
  call user_function (Some 0) typed st args kwds
  = (set_misses (misses st + 1) st,
     match user_function args kwds with
     | inl v => Return (PyVal v)
     | inr e => Raise (UserError e)
     end, 1%nat).
Proof.
  unfold call, wrapper, wrapper_zero. simpl.
  by destruct (user_function args kwds).
Qed.

Lemma run_calls_zero (st : state V) calls :
  let r := run_calls user_function (Some 0) typed st calls in
  misses r.1.1 = misses st + Z.of_nat (length calls) ∧
  hits r.1.1 = hits st ∧ cache r.1.1 = cache st ∧
  length r.1.2 = length calls ∧ r.2 = length calls.
Proof.
  revert st. induction calls as [|c calls IH]; intros st.
  - simpl. split_and!; try done; lia.
  - cbn [run_calls]. rewrite call_zero.
    specialize (IH (set_misses (misses st + 1) st)).
    destruct (run_calls _ _ _ _ _) as [[st2 os] m]. simpl in *.
    destruct IH as (-> & -> & -> & -> & ->). split_and!; try done; lia.
Qed.

End Zero.

(** C7: with capacity zero every call awaited to its end counts one miss,
    invokes the user function exactly once and hands on what it returns or
    raises, leaving hits and dictionary alone; so [n] calls in sequence
    count [n] misses and [n] invocations; and in every reachable
    configuration the dictionary is empty. *)
Theorem zero_capacity_always_misses {V E : Type}
    (user_function : list pyval → list (string * pyval) → V + E)
    (typed : bool) (c : config (V := V) (E := E)) args kwds calls :
  reachable (Some 0) typed c →
  cache c.1 = ∅ ∧
  call user_function (Some 0) typed c.1 args kwds
  = (set_misses (misses c.1 + 1) c.1,
     match user_function args kwds with
     | inl v => Return (PyVal v)
     | inr e => Raise (UserError e)
     end, 1%nat) ∧
  let r := run_calls user_function (Some 0) typed c.1 calls in
  misses r.1.1 = misses c.1 + Z.of_nat (length calls) ∧
  hits r.1.1 = hits c.1 ∧ cache r.1.1 = ∅ ∧
  length r.1.2 = length calls ∧ r.2 = length calls.
Proof.
  intros Hc. apply reachable_sys_inv in Hc as [(es & Hr & _ & Hz) _].
  assert (H0 : cache c.1 = ∅).
  { rewrite (ring_cache _ _ Hr), (Hz eq_refl). done. }
  split; [done|]. split; [apply call_zero|].
  pose proof (run_calls_zero user_function typed c.1 calls) as H.
  simpl in *. by rewrite <-H0.
Qed.

Lemma zero_capacity_always_misses_witness :
  let c : config (V := Z) (E := unit) := (init, []) in
  let r := run_calls (E := unit) (fun _ _ => inl 10) (Some 0) false c.1
             [([PyInt 1], []); ([PyInt 1], [])] in
  reachable (Some 0) false c ∧
  misses r.1.1 = 2 ∧ hits r.1.1 = 0 ∧ cache r.1.1 = ∅ ∧ r.2 = 2%nat.
Proof.
  split; [apply rtc_refl|].
  pose proof (zero_capacity_always_misses (E := unit) (fun _ _ => inl 10)
                false (init, []) [] [] [([PyInt 1], []); ([PyInt 1], [])]
                (rtc_refl _ _)) as (_ & _ & Hm & Hh & Hc & _ & Hn).
  split_and!; [exact Hm|exact Hh|exact Hc|exact Hn].
Defined.

(** *** A failing computation *)



(** *** Unbounded capacity *)

(** The keys of a list of calls. *)
Definition keys_of (typed : bool)
    (calls : list (list pyval * list (string * pyval))) : list dkey :=
  (fun c => make_key c.1 c.2 typed) <$> calls.

(** The user function returns on these arguments. *)
Definition returns {V E : Type}
    (user_function : list pyval → list (string * pyval) → V + E)
    (c : list pyval * list (string * pyval)) : Prop :=
  ∃ v, user_function c.1 c.2 = inl v.

Section Unbounded.

Context {V E : Type}.
Variable user_function : list pyval → list (string * pyval) → V + E.
Variable typed : bool.
Implicit Types (st : state V).

Lemma call_unbounded_hit st args kwds o :
  cache st !! make_key args kwds typed = Some o →
  call user_function None typed st args kwds
  = (set_hits (hits st + 1) st, Return o, 0%nat).
Proof.
  intros Hk. unfold call, wrapper, wrapper_unbounded. by rewrite Hk.
Qed.

Lemma call_unbounded_miss st args kwds :
  cache st !! make_key args kwds typed = None →
  call user_function None typed st args kwds
  = match user_function args kwds with
    | inl v =>
        (set_cache (<[make_key args kwds typed := PyVal v]> (cache st))
           (set_misses (misses st + 1) st), Return (PyVal v), 1%nat)
    | inr e => (set_misses (misses st + 1) st, Raise (UserError e), 1%nat)
    end.
Proof.
  intros Hk. unfold call, wrapper, wrapper_unbounded. rewrite Hk.
  by destruct (user_function args kwds).
Qed.

Lemma call_unbounded_keeps st args kwds k o :
  cache st !! k = Some o →
  cache (call user_function None typed st args kwds).1.1 !! k = Some o.
Proof.
  intros Hk. destruct (cache st !! make_key args kwds typed) as [o'|] eqn:Hk'.
  - by rewrite (call_unbounded_hit _ _ _ _ Hk').
  - rewrite (call_unbounded_miss _ _ _ Hk').
    destruct (user_function args kwds); simpl; [|done].
    rewrite lookup_insert_ne; [done|]. intros <-. congruence.
Qed.

Lemma run_calls_unbounded_keeps st calls k o :
  cache st !! k = Some o →
  cache (run_calls user_function None typed st calls).1.1 !! k = Some o.
Proof.
  revert st. induction calls as [|c calls IH]; intros st Hk; [done|].
  cbn [run_calls].
  apply (call_unbounded_keeps _ c.1 c.2) in Hk.
  destruct (call _ _ _ _ _ _) as [[st1 o1] n1]. simpl in Hk.
  apply IH in Hk. by destruct (run_calls _ _ _ _ _) as [[st2 os] m].
Qed.

Lemma call_unbounded_returned st args kwds st1 o n1 :
  call user_function None typed st args kwds = (st1, Return o, n1) →
  cache st1 !! make_key args kwds typed = Some o.
Proof.
  destruct (cache st !! make_key args kwds typed) as [o'|] eqn:Hk.
  - rewrite (call_unbounded_hit _ _ _ _ Hk). by intros [= <- <- _].
  - rewrite (call_unbounded_miss _ _ _ Hk).
    destruct (user_function args kwds); intros [= <- <- _]; simpl.
    apply lookup_insert_eq.
Qed.

Lemma call_unbounded_dom st c :
  returns user_function c →
  dom (cache (call user_function None typed st c.1 c.2).1.1)
  = dom (cache st) ∪ {[ make_key c.1 c.2 typed ]}.
Proof.
  intros [v Hv]. destruct (cache st !! make_key c.1 c.2 typed) as [o'|] eqn:Hk.
  - rewrite (call_unbounded_hit _ _ _ _ Hk). simpl.
    apply (elem_of_dom_2 (cache st)) in Hk. set_solver.
  - rewrite (call_unbounded_miss _ _ _ Hk), Hv. simpl.
    rewrite dom_insert_L. set_solver.
Qed.

Lemma run_calls_unbounded_dom st calls :
  Forall (returns user_function) calls →
  dom (cache (run_calls user_function None typed st calls).1.1)
  = dom (cache st) ∪ list_to_set (keys_of typed calls).
Proof.
  intros Hall. revert st.
  induction Hall as [|c calls Hc Hall IH]; intros st.
  - simpl. set_solver.
  - cbn [run_calls]. pose proof (call_unbounded_dom st c Hc) as Hd.
    destruct (call _ _ _ _ _ _) as [[st1 o1] n1]. simpl in Hd.
    specialize (IH st1). destruct (run_calls _ _ _ _ _) as [[st2 os] m].
    simpl in *. rewrite IH, Hd. set_solver.
Qed.

End Unbounded.

(** C5 (amended): with [maxsize = None], for calls made in sequence, each
    awaited to its end before the next starts: once a call has returned
    [o], every later call with the same arguments, after any calls made in
    between, returns the same [o] without invoking the user function and
    counts a hit; and when the user function returns on every call of a
    sequence, the dictionary gains exactly the keys of those calls: from the
    empty cache its size is the number of distinct keys called. *)
Theorem unbounded_memoizes {V E : Type}
    (user_function : list pyval → list (string * pyval) → V + E)
    (typed : bool) (st : state V) args kwds st1 o n1 calls :
  call user_function None typed st args kwds = (st1, Return o, n1) →
  (let st2 := (run_calls user_function None typed st1 calls).1.1 in
   call user_function None typed st2 args kwds
   = (set_hits (hits st2 + 1) st2, Return o, 0%nat)) ∧
  (Forall (returns user_function) calls →
   dom (cache (run_calls user_function None typed st1 calls).1.1)
   = dom (cache st1) ∪ list_to_set (keys_of typed calls) ∧
   size (cache (run_calls user_function None typed init calls).1.1)
   = size (list_to_set (C := gset dkey) (keys_of typed calls))).
Proof.
  intros Hcall. split.
  - simpl. apply call_unbounded_hit, run_calls_unbounded_keeps.
    by eapply call_unbounded_returned.
  - intros Hall. split; [by apply run_calls_unbounded_dom|].
    rewrite <-size_dom, (run_calls_unbounded_dom _ _ _ _ Hall). simpl.
    rewrite dom_empty_L. f_equal. set_solver.
Qed.

Lemma unbounded_memoizes_witness :
  let f : list pyval → list (string * pyval) → Z + unit :=
    fun args _ => match args with [PyInt z] => inl (z * 10) | _ => inr () end in
  let calls := [([PyInt 2], []); ([PyInt 3], []); ([PyInt 2], [])] in
  let st1 := (call f None false init [PyInt 1] []).1.1 in
  let st2 := (run_calls f None false st1 calls).1.1 in
  call f None false st2 [PyInt 1] []
  = (set_hits (hits st2 + 1) st2, Return (PyVal 10), 0%nat) ∧
  size (cache (run_calls f None false init calls).1.1) = 2%nat.
Proof.
  intros f calls st1 st2.
  pose proof (unbounded_memoizes f false init [PyInt 1] [] st1 (PyVal 10) 1%nat
                calls eq_refl) as [Ha Hb].
  split; [exact Ha|].
  assert (Hall : Forall (returns f) calls).
  { repeat (apply Forall_cons; split; [by eexists|]). apply Forall_nil_2. }
  destruct (Hb Hall) as [_ Hs]. rewrite Hs. vm_compute. reflexivity.
Defined.

(** *** Positive capacity: least recently used goes first *)

Section RecencyOrder.

Implicit Types (ks : list dkey) (k : dkey).

Lemma filter_all {A} (P : A → Prop) `{∀ x, Decision (P x)} (l : list A) :
  (∀ x, x ∈ l → P x) → filter P l = l.
Proof.
  induction l as [|x l IH]; intros Hl; [done|].
  rewrite filter_cons_True by (apply Hl; left). f_equal.
  apply IH. intros y Hy. apply Hl. by right.
Qed.

Lemma filter_ne_split (l1 l2 : list dkey) k :
  NoDup (l1 ++ k :: l2) →
  filter (fun k' => k' ≠ k) (l1 ++ k :: l2) = l1 ++ l2.
Proof.
  intros Hnd. apply NoDup_app in Hnd as (_ & H1 & H2).
  apply NoDup_cons in H2 as [H2 _].
  rewrite filter_app, filter_cons_False by (by intros ?).
  rewrite !filter_all; [done|..].
  - intros x Hx ->. done.
  - intros x Hx ->. apply (H1 k Hx). left.
Qed.

Lemma lru_touch_absent n ks k :
  k ∉ ks → Z.of_nat (length ks) < n → lru_touch n ks k = ks ++ [k].
Proof.
  intros Hk Hn. unfold lru_touch.
  rewrite bool_decide_false by done. by rewrite bool_decide_false by lia.
Qed.

Lemma lru_touch_full n ks k :
  k ∉ ks → n ≤ Z.of_nat (length ks) → lru_touch n ks k = tail ks ++ [k].
Proof.
  intros Hk Hn. unfold lru_touch.
  rewrite bool_decide_false by done. by rewrite bool_decide_true by lia.
Qed.

(** While the capacity is not exceeded, a key that is never touched again
    stays the least recently used. *)
Lemma lru_front_stays n kmid k1 rest :
  NoDup (k1 :: rest) → k1 ∉ kmid →
  Z.of_nat (size (list_to_set (C := gset dkey) (k1 :: rest)
                  ∪ list_to_set kmid)) ≤ n →
  ∃ rest', foldl (lru_touch n) (k1 :: rest) kmid = k1 :: rest' ∧
    NoDup (k1 :: rest') ∧
    list_to_set (C := gset dkey) (k1 :: rest')
    = list_to_set (k1 :: rest) ∪ list_to_set kmid.
Proof.
  revert rest. induction kmid as [|k kmid IH]; intros rest Hnd Hk1 Hsz.
  - exists rest. simpl. split_and!; [done|done|set_solver].
  - assert (Hne : k ≠ k1) by set_solver.
    assert (Hk1' : k1 ∉ kmid) by set_solver.
    simpl. destruct (decide (k ∈ k1 :: rest)) as [Hin|Hin].
    + unfold lru_touch at 2. rewrite bool_decide_true by done.
      rewrite filter_cons_True by done. simpl.
      assert (Hnd' : NoDup (k1 :: (filter (fun k' => k' ≠ k) rest ++ [k]))).
      { apply NoDup_cons in Hnd as [Hr Hnd]. apply NoDup_cons. split.
        - rewrite elem_of_app, list_elem_of_filter, list_elem_of_singleton.
          intros [[_ ?]|?]; done.
        - apply NoDup_app. split_and!;
            [by apply NoDup_filter| |apply NoDup_singleton].
          intros x Hx Hx'. apply list_elem_of_singleton in Hx' as ->.
          apply list_elem_of_filter in Hx as [Hx _]. done. }
      assert (Hset : list_to_set (C := gset dkey)
                       (k1 :: (filter (fun k' => k' ≠ k) rest ++ [k]))
                     = list_to_set (k1 :: rest)).
      { apply set_eq. intros x.
        rewrite !elem_of_list_to_set, !elem_of_cons, elem_of_app,
          list_elem_of_filter, list_elem_of_singleton.
        apply elem_of_cons in Hin as [?|Hin]; [done|].
        destruct (decide (x = k)) as [->|]; naive_solver. }
      destruct (IH _ Hnd' Hk1') as (rest' & Hf & Hnd'' & Hs).
      { rewrite Hset. etrans; [|exact Hsz]. apply inj_le, subseteq_size.
        set_solver. }
      exists rest'. split_and!; [done|done|].
      change (list_to_set (C := gset dkey) (k1 :: rest')
              = list_to_set (k1 :: rest) ∪ list_to_set (k :: kmid)).
      rewrite Hs, Hset.
      apply (elem_of_list_to_set (C := gset dkey)) in Hin. set_solver.
    + assert (Hlt : Z.of_nat (length (k1 :: rest)) < n).
      { rewrite <-(size_list_to_set (C := gset dkey)) by done.
        eapply Z.lt_le_trans; [|exact Hsz]. apply inj_lt, subset_size.
        assert (Hin' : k ∉ list_to_set (C := gset dkey) (k1 :: rest))
          by (by rewrite elem_of_list_to_set).
        split; [set_solver|]. intros Hsub. apply Hin', Hsub. set_solver. }
      rewrite lru_touch_absent by done. simpl.
      assert (Hnd' : NoDup (k1 :: (rest ++ [k]))).
      { change (NoDup ((k1 :: rest) ++ [k])).
        apply NoDup_app. split_and!; [done| |apply NoDup_singleton].
        intros x Hx Hx'. apply list_elem_of_singleton in Hx' as ->. done. }
      destruct (IH _ Hnd' Hk1') as (rest' & Hf & Hnd'' & Hs).
      { etrans; [|exact Hsz]. apply inj_le, subseteq_size. set_solver. }
      exists rest'. split_and!; [done|done|].
      change (list_to_set (C := gset dkey) (k1 :: rest')
              = list_to_set (k1 :: rest) ∪ list_to_set (k :: kmid)).
      rewrite Hs. set_solver.
Qed.

End RecencyOrder.

Section BoundedRuns.

Context {V E : Type}.
Variable user_function : list pyval → list (string * pyval) → V + E.
Variable n : Z.
Variable typed : bool.
Hypothesis n_positive : 0 < n.
Implicit Types (st : state V) (es : list (addr * dkey)).

(** A call awaited to its end acts on the keys in recency order as
    [lru_touch] says. *)
Lemma call_bounded_lru st es c :
  ring st es → cap n st es → returns user_function c →
  ∃ es', ring (call user_function (Some n) typed st c.1 c.2).1.1 es' ∧
    cap n (call user_function (Some n) typed st c.1 c.2).1.1 es' ∧
    es'.*2 = lru_touch n es.*2 (make_key c.1 c.2 typed).
Proof.
  intros Hr Hc [v Hv]. unfold call, wrapper.
  rewrite decide_False by lia.
  destruct (wrapper_bounded_cases (E := E) n typed st es c.1 c.2 Hr Hc)
    as [(Hin & a & l1 & l2 & st1 & -> & -> & Hr' & Hc' & _)|[Hk ->]].
  - eexists. split_and!; [exact Hr'|exact Hc'|]. simpl.
    unfold lru_touch. rewrite bool_decide_true by done.
    rewrite !fmap_app, fmap_cons. simpl.
    rewrite filter_ne_split; [by rewrite app_assoc|].
    pose proof (ring_keys_nodup _ _ Hr) as Hnd.
    by rewrite fmap_app, fmap_cons in Hnd.
  - rewrite Hv.
    assert (Hr1 : ring (set_misses (misses st + 1) st) es)
      by (by eapply ring_ext; [..|exact Hr]).
    assert (Hc1 : cap n (set_misses (misses st + 1) st) es) by exact Hc.
    destruct (bounded_store_cases (E := E) n _ es (make_key c.1 c.2 typed) v
                Hr1 Hc1) as (st' & es' & -> & Hr' & Hc' & _ & _ & Hes).
    exists es'. split_and!; [done|done|]. simpl. rewrite Hes.
    rewrite bool_decide_false by done. simpl.
    destruct (Hc n_positive) as [-> _]. unfold lru_touch.
    rewrite (bool_decide_false (_ ∈ _)) by done. by rewrite length_fmap.
Qed.

Lemma run_calls_bounded_lru st es calls :
  ring st es → cap n st es → Forall (returns user_function) calls →
  ∃ es', ring (run_calls user_function (Some n) typed st calls).1.1 es' ∧
    cap n (run_calls user_function (Some n) typed st calls).1.1 es' ∧
    es'.*2 = foldl (lru_touch n) es.*2 (keys_of typed calls).
Proof.
  intros Hr Hc Hall. revert st es Hr Hc.
  induction Hall as [|c calls Hret Hall IH]; intros st es Hr Hc.
  - exists es. by split_and!.
  - cbn [run_calls].
    destruct (call_bounded_lru st es c Hr Hc Hret) as (es1 & Hr1 & Hc1 & He1).
    destruct (call _ _ _ _ _ _) as [[st1 o1] n1]. simpl in *.
    destruct (IH st1 es1 Hr1 Hc1) as (es2 & Hr2 & Hc2 & He2).
    destruct (run_calls _ _ _ _ _) as [[st2 os] m]. simpl in *.
    exists es2. split_and!; [done|done|]. by rewrite He2, He1.
Qed.

End BoundedRuns.

(** C2: under a positive capacity [n], in every reachable configuration
    the dictionary holds at most [n] entries; and when, on a fresh cache,
    the calls [first :: mid] are made in sequence, where [mid] never has the
    key of [first] and the calls have exactly [n] distinct keys, and then a
    call [last] with a further key is made, the dictionary holds the [n]
    keys before [last], and after it the same keys without the key of
    [first] and with the key of [last]. *)
Theorem capacity_bound_and_lru_eviction {V E : Type}
    (user_function : list pyval → list (string * pyval) → V + E)
    (n : Z) (typed : bool) (c : config (V := V) (E := E))
    (first : list pyval * list (string * pyval)) mid
    (last : list pyval * list (string * pyval)) :
  0 < n → reachable (Some n) typed c →
  Z.of_nat (size (cache c.1)) ≤ n ∧
  (Forall (returns user_function) (first :: mid ++ [last]) →
   make_key first.1 first.2 typed ∉ keys_of typed mid →
   make_key last.1 last.2 typed
     ∉ make_key first.1 first.2 typed :: keys_of typed mid →
   Z.of_nat (size (list_to_set (C := gset dkey)
                     (make_key first.1 first.2 typed :: keys_of typed mid)))
   = n →
   let stN := (run_calls user_function (Some n) typed init (first :: mid)).1.1 in
   let st' := (call user_function (Some n) typed stN last.1 last.2).1.1 in
   dom (cache stN)
   = list_to_set (make_key first.1 first.2 typed :: keys_of typed mid) ∧
   dom (cache st')
   = dom (cache stN) ∖ {[ make_key first.1 first.2 typed ]}
     ∪ {[ make_key last.1 last.2 typed ]}).
Proof.
  intros Hn Hc. split.
  - apply reachable_sys_inv in Hc as [(es & Hr & Hcap & _) _].
    rewrite (ring_size _ _ Hr). by destruct (Hcap Hn).
  - clear c Hc. intros Hall Hk1 Hkl Hsz stN st'.
    set (k1 := make_key first.1 first.2 typed) in *.
    set (kl := make_key last.1 last.2 typed) in *.
    change (first :: mid ++ [last]) with ((first :: mid) ++ [last]) in Hall.
    apply Forall_app in Hall as [Hall Hlast].
    rewrite Forall_singleton in Hlast.
    assert (Hcap0 : cap n (init (V := V)) []).
    { intros _. simpl. split; [|lia]. by rewrite bool_decide_false by lia. }
    destruct (run_calls_bounded_lru user_function n typed Hn init []
                (first :: mid) ring_init Hcap0 Hall) as (esN & HrN & HcN & HeN).
    fold stN in HrN, HcN. simpl in HeN. fold k1 in HeN.
    rewrite lru_touch_absent in HeN by (simpl; first [apply not_elem_of_nil|lia]).
    simpl in HeN.
    destruct (lru_front_stays n (keys_of typed mid) k1 [])
      as (rest & Hfold & Hnd & Hset); [apply NoDup_singleton|done| |].
    { replace (list_to_set (C := gset dkey) [k1]
               ∪ list_to_set (keys_of typed mid))
        with (list_to_set (C := gset dkey) (k1 :: keys_of typed mid))
        by set_solver.
      lia. }
    rewrite Hfold in HeN.
    assert (HdN : dom (cache stN) = list_to_set (k1 :: keys_of typed mid)).
    { rewrite (ring_cache _ _ HrN), entries_map_dom, HeN, Hset. set_solver. }
    split; [exact HdN|].
    destruct (call_bounded_lru user_function n typed Hn stN esN last
                HrN HcN Hlast) as (es' & Hr' & _ & He').
    fold st' kl in Hr', He'.
    assert (Hkl' : kl ∉ k1 :: rest).
    { rewrite <-(elem_of_list_to_set (C := gset dkey)), Hset.
      rewrite <-(elem_of_list_to_set (C := gset dkey)) in Hkl. set_solver. }
    rewrite HeN, lru_touch_full in He'; [|done|].
    + rewrite (ring_cache _ _ Hr'), entries_map_dom, He', HdN. simpl.
      apply NoDup_cons in Hnd as [Hk1r _].
      assert (Hrest : list_to_set (C := gset dkey) rest
                      = list_to_set (k1 :: keys_of typed mid) ∖ {[k1]}).
      { assert (Hset' : list_to_set (C := gset dkey) (k1 :: rest)
                        = list_to_set (k1 :: keys_of typed mid))
          by (rewrite Hset; set_solver).
        rewrite <-Hset'.
        rewrite <-(elem_of_list_to_set (C := gset dkey)) in Hk1r. set_solver. }
      rewrite list_to_set_app_L, Hrest. set_solver.
    + rewrite <-(size_list_to_set (C := gset dkey)) by done.
      assert (Hset' : list_to_set (C := gset dkey) (k1 :: rest)
                      = list_to_set (k1 :: keys_of typed mid))
        by (rewrite Hset; set_solver).
      rewrite Hset'. lia.
Qed.

Lemma capacity_bound_and_lru_eviction_witness :
  let f : list pyval → list (string * pyval) → Z + unit :=
    fun _ _ => inl 10 in
  let first := ([PyInt 1], []) in
  let mid := [([PyInt 2], []); ([PyInt 3], []); ([PyInt 2], [])] in
  let last := ([PyInt 4], []) in
  let stN := (run_calls f (Some 3) false init (first :: mid)).1.1 in
  let st' := (call f (Some 3) false stN last.1 last.2).1.1 in
  dom (cache stN) = list_to_set (keys_of false (first :: mid)) ∧
  dom (cache st')
  = dom (cache stN) ∖ {[ make_key [PyInt 1] [] false ]}
    ∪ {[ make_key [PyInt 4] [] false ]}.
Proof.
  intros f first mid last.
  refine (proj2 (capacity_bound_and_lru_eviction f 3 false (init, [])
                   first mid last _ (rtc_refl _ _)) _ _ _ _).
  - lia.
  - repeat (apply Forall_cons; split; [by eexists|]). apply Forall_nil_2.
  - vm_compute. intros H. repeat (inversion H as [|? ? ? H']; clear H; rename H' into H).
  - vm_compute. intros H. repeat (inversion H as [|? ? ? H']; clear H; rename H' into H).
  - vm_compute. reflexivity.
Defined.

(** *** The end-to-end scenario *)

Section BoundedCall.

Context {V E : Type}.
Variable user_function : list pyval → list (string * pyval) → V + E.

Lemma call_bounded_miss n typed (st : state V) args kwds v :
  n ≠ 0 → cache st !! make_key args kwds typed = None →
  user_function args kwds = inl v →
  call user_function (Some n) typed st args kwds
  = (bounded_store n (make_key args kwds typed) v
       (set_misses (misses st + 1) st), 1%nat).
Proof.
  intros Hn Hk Hv. unfold call.
  by rewrite (wrapper_bounded_miss n typed st args kwds Hn Hk), Hv.
Qed.

Lemma call_bounded_hit n typed (st : state V) args kwds a :
  n ≠ 0 → cache st !! make_key args kwds typed = Some (PyLink a) →
  call user_function (Some n) typed st args kwds
  = (set_hits (hits st + 1)
       (set_heap (move_to_front (root st) a (heap st)) st),
     Return (RESULT (heap st !!! a)), 0%nat).
Proof.
  intros Hn Hk. unfold call, wrapper. rewrite decide_False by done.
  unfold wrapper_bounded. by rewrite Hk.
Qed.

End BoundedCall.

(** C1: a cache of capacity 2 without type sensitivity, over a user
    function that returns [v1], [v2], [v3] on the arguments 1, 2, 3; the
    calls f(1), f(2), f(1), f(3) in sequence.  They are a miss, a miss, a hit
    and a miss (the outcome, the invocations of the user function and the
    counters after each call); afterwards the dictionary holds exactly the
    keys of 1 and 3, not the key of 2, and [cache_info] reports
    hits 1, misses 3, maxsize 2, currsize 2. *)
Theorem e2e_scenario {V E : Type}
    (user_function : list pyval → list (string * pyval) → V + E)
    (v1 v2 v3 : V) :
  user_function [PyInt 1] [] = inl v1 →
  user_function [PyInt 2] [] = inl v2 →
  user_function [PyInt 3] [] = inl v3 →
  let r1 := call user_function (Some 2) false init [PyInt 1] [] in
  let r2 := call user_function (Some 2) false r1.1.1 [PyInt 2] [] in
  let r3 := call user_function (Some 2) false r2.1.1 [PyInt 1] [] in
  let r4 := call user_function (Some 2) false r3.1.1 [PyInt 3] [] in
  (r1.1.2, r1.2, hits r1.1.1, misses r1.1.1)
    = (Return (PyVal v1), 1%nat, 0, 1) ∧
  (r2.1.2, r2.2, hits r2.1.1, misses r2.1.1)
    = (Return (PyVal v2), 1%nat, 0, 2) ∧
  (r3.1.2, r3.2, hits r3.1.1, misses r3.1.1)
    = (Return (PyVal v1), 0%nat, 1, 2) ∧
  (r4.1.2, r4.2, hits r4.1.1, misses r4.1.1)
    = (Return (PyVal v3), 1%nat, 1, 3) ∧
  dom (cache r4.1.1)
    = {[ make_key [PyInt 1] [] false; make_key [PyInt 3] [] false ]} ∧
  (make_key [PyInt 2] [] false ∉ dom (cache r4.1.1)) ∧
  cache_info (Some 2) r4.1.1 = mkCacheInfo 1 3 (Some 2) 2.
Proof.
  intros H1 H2 H3 r1 r2 r3 r4.
  assert (E1 : r1 = (bounded_store 2 (make_key [PyInt 1] [] false) v1
                       (set_misses (misses (init (V := V)) + 1) init),
                     1%nat)).
  { unfold r1. apply call_bounded_miss; [lia|reflexivity|done]. }
  clearbody r1.
  assert (E2 : r2 = (bounded_store 2 (make_key [PyInt 2] [] false) v2
                       (set_misses (misses r1.1.1 + 1) r1.1.1), 1%nat)).
  { unfold r2. apply call_bounded_miss; [lia| |done].
    rewrite E1. vm_compute. reflexivity. }
  clearbody r2.
  assert (E3 : r3 = (set_hits (hits r2.1.1 + 1)
                       (set_heap (move_to_front (root r2.1.1) 1%nat
                                    (heap r2.1.1)) r2.1.1),
                     Return (RESULT (heap r2.1.1 !!! 1%nat)), 0%nat)).
  { unfold r3. apply call_bounded_hit; [lia|].
    rewrite E2, E1. vm_compute. reflexivity. }
  clearbody r3.
  assert (E4 : r4 = (bounded_store 2 (make_key [PyInt 3] [] false) v3
                       (set_misses (misses r3.1.1 + 1) r3.1.1), 1%nat)).
  { unfold r4. apply call_bounded_miss; [lia| |done].
    rewrite E3, E2, E1. vm_compute. reflexivity. }
  clearbody r4.
  rewrite E4, E3, E2, E1. clear.
  split_and!.
  - vm_compute. reflexivity.
  - vm_compute. reflexivity.
  - vm_compute. reflexivity.
  - vm_compute. reflexivity.
  - vm_compute. reflexivity.
  - rewrite not_elem_of_dom. vm_compute. reflexivity.
  - vm_compute. reflexivity.
Qed.

Lemma e2e_scenario_witness :
  let f : list pyval → list (string * pyval) → Z + unit :=
    fun args _ => match args with [PyInt z] => inl (z * 10) | _ => inr () end in
  let r1 := call f (Some 2) false init [PyInt 1] [] in
  let r2 := call f (Some 2) false r1.1.1 [PyInt 2] [] in
  let r3 := call f (Some 2) false r2.1.1 [PyInt 1] [] in
  let r4 := call f (Some 2) false r3.1.1 [PyInt 3] [] in
  (r3.1.2, r3.2, hits r3.1.1, misses r3.1.1)
    = (Return (PyVal 10), 0%nat, 1, 2) ∧
  cache_info (Some 2) r4.1.1 = mkCacheInfo 1 3 (Some 2) 2.
Proof.
  intros f.
  pose proof (e2e_scenario f 10 20 30 eq_refl eq_refl eq_refl)
    as (_ & _ & H3 & _ & _ & _ & H4).
  split; [exact H3|exact H4].
Defined.

(** *** Type sensitivity *)

Section Keys.

Lemma hashable_int_float_one :
  hashable_elem (KVal (PyFloat float_one)) = hashable_elem (KVal (PyInt 1)).
Proof. vm_compute. reflexivity. Qed.

(** The key tuple of an untyped call, before the fast path. *)
Definition flat_key (args : list pyval) (kwds : list (string * pyval))
    : list kelem :=
  if is_empty kwds then KVal <$> args
  else ((KVal <$> args) ++ [KMark]) ++ kwds_items kwds.

Lemma make_key_untyped_seq args kwds e1 e2 l :
  flat_key args kwds = e1 :: e2 :: l →
  make_key args kwds false = DSeq (hashable_elem <$> flat_key args kwds).
Proof.
  unfold make_key, _make_key, flat_key. intros ->. reflexivity.
Qed.

Lemma flat_key_long v rest kwds :
  rest ≠ [] ∨ kwds ≠ [] →
  ∃ e2 l, flat_key (v :: rest) kwds = KVal v :: e2 :: l.
Proof.
  unfold flat_key. intros [Hr|Hk].
  - destruct rest as [|x rest]; [done|]. destruct kwds; simpl; eauto.
  - destruct kwds as [|kw kwds]; [done|]. simpl.
    destruct rest; simpl; eauto.
Qed.

Lemma flat_key_tail v w rest kwds :
  tail (flat_key (v :: rest) kwds) = tail (flat_key (w :: rest) kwds).
Proof. unfold flat_key. by destruct kwds. Qed.

(** Without type sensitivity, calls with [1] and with [1.0] in the first
    place and anything else besides have the same key. *)
Lemma make_key_untyped_collide rest kwds :
  rest ≠ [] ∨ kwds ≠ [] →
  make_key (PyInt 1 :: rest) kwds false
  = make_key (PyFloat float_one :: rest) kwds false.
Proof.
  intros H.
  destruct (flat_key_long (PyInt 1) rest kwds H) as (e2 & l & H1).
  destruct (flat_key_long (PyFloat float_one) rest kwds H) as (e2' & l' & H2).
  rewrite (make_key_untyped_seq _ _ _ _ _ H1),
    (make_key_untyped_seq _ _ _ _ _ H2).
  pose proof (flat_key_tail (PyInt 1) (PyFloat float_one) rest kwds) as Ht.
  rewrite H1, H2 in *. simpl in Ht. injection Ht as -> ->.
  rewrite !fmap_cons. by rewrite hashable_int_float_one.
Qed.

(** The key of a typed call: the key tuple, then the types of the
    positional arguments, then the types of the keyword arguments. *)
Lemma make_key_typed_shape v rest kwds :
  ∃ l, make_key (v :: rest) kwds true
       = DSeq ((hashable_elem <$> flat_key (v :: rest) kwds)
               ++ DType (type v) :: l) ∧
       ∀ w, make_key (w :: rest) kwds true
            = DSeq ((hashable_elem <$> flat_key (w :: rest) kwds)
                    ++ DType (type w) :: l).
Proof.
  unfold make_key, _make_key, flat_key. destruct kwds as [|kw kwds].
  - cbn [is_empty]. eexists. split; [|intros w]; cbn [hashable];
      rewrite !fmap_app, !fmap_cons; cbn [hashable_elem]; reflexivity.
  - cbn [is_empty]. eexists. split; [|intros w]; cbn [hashable];
      rewrite !fmap_app, !fmap_cons, <-!app_assoc; cbn [hashable_elem];
      reflexivity.
Qed.

Lemma flat_key_length v w rest kwds :
  length (flat_key (v :: rest) kwds) = length (flat_key (w :: rest) kwds).
Proof.
  unfold flat_key. by destruct kwds.
Qed.

(** With type sensitivity the keys differ in the type of the first
    argument. *)
Lemma make_key_typed_distinct rest kwds :
  make_key (PyInt 1 :: rest) kwds true
  ≠ make_key (PyFloat float_one :: rest) kwds true.
Proof.
  destruct (make_key_typed_shape (PyInt 1) rest kwds) as (l & H1 & H2).
  rewrite H1, (H2 (PyFloat float_one)). intros [= H].
  apply app_inj_1 in H as [_ [=]].
  rewrite !length_fmap. apply flat_key_length.
Qed.

End Keys.

Section TwoCalls.

Context {V E : Type}.
Variable user_function : list pyval → list (string * pyval) → V + E.

(** Two calls on a fresh cache that can hold two entries leave one entry
    if their keys are equal and two if not. *)
Lemma two_calls_size maxsize typed c1 c2 :
  maxsize = None ∨ (∃ n, maxsize = Some n ∧ 2 ≤ n) →
  returns user_function c1 → returns user_function c2 →
  size (cache (run_calls user_function maxsize typed init [c1; c2]).1.1)
  = if decide (make_key c1.1 c1.2 typed = make_key c2.1 c2.2 typed)
    then 1%nat else 2%nat.
Proof.
  intros Hm H1 H2.
  assert (Hall : Forall (returns user_function) [c1; c2]).
  { repeat (apply Forall_cons; split; [done|]). apply Forall_nil_2. }
  set (k1 := make_key c1.1 c1.2 typed). set (k2 := make_key c2.1 c2.2 typed).
  destruct Hm as [->|(n & -> & Hn)].
  - rewrite <-size_dom, (run_calls_unbounded_dom _ _ _ _ Hall).
    simpl. fold k1 k2. rewrite dom_empty_L.
    destruct (decide (k1 = k2)) as [->|Hne].
    + replace (∅ ∪ ({[k2]} ∪ ({[k2]} ∪ ∅))) with ({[k2]} : gset dkey)
        by set_solver.
      apply size_singleton.
    + replace (∅ ∪ ({[k1]} ∪ ({[k2]} ∪ ∅)))
        with (list_to_set (C := gset dkey) [k1; k2]) by set_solver.
      rewrite size_list_to_set; [done|].
      apply NoDup_cons. split; [set_solver|apply NoDup_singleton].
  - assert (Hcap0 : cap n (init (V := V)) []).
    { intros _. simpl. split; [|lia]. by rewrite bool_decide_false by lia. }
    destruct (run_calls_bounded_lru user_function n typed ltac:(lia) init []
                [c1; c2] ring_init Hcap0 Hall) as (es & Hr & _ & He).
    rewrite (ring_size _ _ Hr), <-(length_fmap snd), He. simpl. fold k1 k2.
    rewrite (lru_touch_absent n [] k1)
      by (simpl; first [apply not_elem_of_nil|lia]).
    simpl. destruct (decide (k1 = k2)) as [->|Hne].
    + unfold lru_touch. rewrite bool_decide_true by set_solver.
      by rewrite filter_cons_False by (by intros ?).
    + rewrite lru_touch_absent; [done|set_solver|simpl; lia].
Qed.

End TwoCalls.

(** C6, as stated, fails in its second half: without type sensitivity the
    key of the lone argument [1] is the integer itself (the fast path of
    [_make_key] for a single [int] or [str] argument), the key of the lone
    argument [1.0] is a [_HashedSeq], and the two calls make two entries. *)
Lemma untyped_int_float_counterexample :
  let st := (run_calls (V := Z) (E := unit) (fun _ _ => inl 10) (Some 128)
               false init
               [([PyInt 1], []); ([PyFloat float_one], [])]).1.1 in
  size (cache st) = 2%nat ∧ size (cache st) ≠ 1%nat ∧
  make_key [PyInt 1] [] false ≠ make_key [PyFloat float_one] [] false.
Proof.
  split_and!.
  - vm_compute. reflexivity.
  - vm_compute. discriminate.
  - vm_compute. discriminate.
Qed.

(** C6 (amended): on a fresh cache that can hold two entries, a call with
    the integer [1] and a call with the float [1.0] in the first place, and
    the same further arguments, make two entries with type sensitivity;
    without it they make one entry when there is any further positional or
    keyword argument, and two entries when [1] and [1.0] are the only
    argument. *)
Theorem type_sensitivity {V E : Type}
    (user_function : list pyval → list (string * pyval) → V + E)
    (maxsize : option Z) (rest : list pyval) (kwds : list (string * pyval)) :
  maxsize = None ∨ (∃ n, maxsize = Some n ∧ 2 ≤ n) →
  returns user_function (PyInt 1 :: rest, kwds) →
  returns user_function (PyFloat float_one :: rest, kwds) →
  let calls := [(PyInt 1 :: rest, kwds); (PyFloat float_one :: rest, kwds)] in
  size (cache (run_calls user_function maxsize true init calls).1.1) = 2%nat ∧
  (rest ≠ [] ∨ kwds ≠ [] →
   size (cache (run_calls user_function maxsize false init calls).1.1)
   = 1%nat) ∧
  (rest = [] ∧ kwds = [] →
   size (cache (run_calls user_function maxsize false init calls).1.1)
   = 2%nat).
Proof.
  intros Hm H1 H2 calls. unfold calls. split_and!.
  - rewrite (two_calls_size _ _ _ _ _ Hm H1 H2). simpl.
    rewrite decide_False; [done|]. apply make_key_typed_distinct.
  - intros H. rewrite (two_calls_size _ _ _ _ _ Hm H1 H2). simpl.
    by rewrite decide_True by (by apply make_key_untyped_collide).
  - intros [-> ->]. rewrite (two_calls_size _ _ _ _ _ Hm H1 H2).
    vm_compute. reflexivity.
Qed.

Lemma type_sensitivity_witness :
  let f : list pyval → list (string * pyval) → Z + unit := fun _ _ => inl 10 in
  let calls := [([PyInt 1; PyStr "a"], []); ([PyFloat float_one; PyStr "a"], [])] in
  size (cache (run_calls f (Some 128) true init calls).1.1) = 2%nat ∧
  size (cache (run_calls f (Some 128) false init calls).1.1) = 1%nat.
Proof.
  intros f calls.
  assert (Hm : Some 128 = None ∨ (∃ n, Some 128 = Some n ∧ 2 ≤ n)).
  { right. exists 128. split; [reflexivity|lia]. }
  pose proof (type_sensitivity f (Some 128) [PyStr "a"] [] Hm
                (ex_intro _ 10 eq_refl) (ex_intro _ 10 eq_refl))
    as (Ht & Hu & _).
  split; [exact Ht|]. apply Hu. left. discriminate.
Defined.

(** * Further properties of the cache engine *)

(** ** Invariants of reachable configurations, in general *)

Section ReachableInvariant.

Context {V E : Type}.
Variable maxsize : option Z.
Variable typed : bool.

(** A property of states that holds initially and is kept by [cache_clear],
    by the miss count, by a call that returns without awaiting and by the
    resumption of a suspended call holds in every reachable
    configuration. *)
Lemma reachable_invariant (P : state V → Prop) :
  P init →
  (∀ st, inv maxsize st → P st → P (cache_clear st)) →
  (∀ st m, P st → P (set_misses m st)) →
  (∀ st args kwds st' (o : outcome V E),
     inv maxsize st → P st →
     wrapper maxsize typed st args kwds = Done st' o → P st') →
  (∀ st (resume : V → state V → state V * outcome V E) v,
     inv maxsize st → P st → resumes maxsize resume → P (resume v st).1) →
  ∀ c : config (V := V) (E := E), reachable maxsize typed c → P c.1.
Proof.
  intros Hinit Hclear Hmiss Hdone Hres c Hc.
  cut (sys_inv maxsize c ∧ P c.1); [by intros []|].
  eapply (rtc_ind_r (R := step maxsize typed)
            (fun c => sys_inv maxsize c ∧ P c.1) (init, []));
    [|intros c1 c2 _ Hs [Hsi HP]|exact Hc].
  - split; [|done]. split; [apply inv_init|by apply Forall_nil].
  - split; [by eapply sys_inv_step|].
    destruct Hsi as [Hi Hp].
    destruct Hs as [c1 c2 Hs|st pending]; [|by apply Hclear].
    destruct Hs as [st pending args kwds st' o Hw
                   |st pending args kwds st' args' kwds' resume Hw
                   |st p1 resume p2 v|st p1 resume p2]; simpl in *.
    + by eapply Hdone.
    + apply wrapper_await in Hw as (-> & _). by apply Hmiss.
    + apply Forall_app in Hp as [_ Hp]. apply Forall_cons in Hp as [Hp _].
      by apply Hres.
    + done.
Qed.

End ReachableInvariant.

(** ** The cache raises nothing of its own *)

Section NoInternalError.

Context {V E : Type}.
Variable user_function : list pyval → list (string * pyval) → V + E.
Variable maxsize : option Z.
Variable typed : bool.

Lemma resumes_returns (resume : V → state V → state V * outcome V E) v st :
  inv maxsize st → resumes maxsize resume →
  (resume v st).2 = Return (PyVal v).
Proof.
  unfold inv, resumes. destruct maxsize as [n|].
  - destruct (decide (n = 0)) as [->|Hn]; [by intros _ ->|].
    intros (es & Hr & Hc & _) [key ->].
    by destruct (bounded_store_cases (E := E) n st es key v Hr Hc)
      as (st' & es' & -> & _).
  - by intros _ [key ->].
Qed.

Lemma wrapper_done_returns st args kwds st' (o : outcome V E) :
  inv maxsize st → wrapper maxsize typed st args kwds = Done st' o →
  ∃ r, o = Return r.
Proof.
  unfold inv, wrapper. destruct maxsize as [n|].
  - destruct (decide (n = 0)) as [->|Hn]; [done|].
    intros (es & Hr & Hc & _) Hw.
    destruct (wrapper_bounded_cases (E := E) n typed st es args kwds Hr Hc)
      as [(_ & a & l1 & l2 & st1 & _ & Hw' & _)|[_ Hw']];
      rewrite Hw' in Hw; [|done].
    injection Hw as _ <-. eauto.
  - unfold wrapper_unbounded. destruct (cache st !! _); [|done].
    intros _ [= _ <-]. eauto.
Qed.

End NoInternalError.

(** X1: from every reachable configuration, a call awaited to its end
    returns a value, or raises the exception the user function raised on
    its arguments: the [del cache[oldkey]] of an eviction never raises
    [KeyError], and no link is ever unpacked from something else.  A
    suspended call, whenever it is resumed, returns the value it is resumed
    with. *)
Theorem no_internal_error {V E : Type}
    (user_function : list pyval → list (string * pyval) → V + E)
    (maxsize : option Z) (typed : bool) (c : config (V := V) (E := E))
    args kwds :
  reachable maxsize typed c →
  match (call user_function maxsize typed c.1 args kwds).1.2 with
  | Return _ => True
  | Raise (UserError e) => user_function args kwds = inr e
  | Raise _ => False
  end ∧
  ∀ p1 resume p2 v, c.2 = p1 ++ resume :: p2 →
    (resume v c.1).2 = Return (PyVal v).
Proof.
  intros Hc. apply reachable_sys_inv in Hc as [Hi Hp]. split.
  - unfold call.
    destruct (wrapper maxsize typed c.1 args kwds)
      as [st' o|st' args' kwds' resume] eqn:Hw.
    + by destruct (wrapper_done_returns _ _ _ _ _ _ _ Hi Hw) as [r ->].
    + apply wrapper_await in Hw as (-> & -> & -> & Hres).
      destruct (user_function args kwds) as [v|e] eqn:Hf; simpl; [|done].
      rewrite (resumes_returns maxsize resume v); [done| |done].
      by apply inv_set_misses.
  - intros p1 resume p2 v Hpend. rewrite Hpend in Hp.
    apply Forall_app in Hp as [_ Hp]. apply Forall_cons in Hp as [Hp _].
    by apply (resumes_returns maxsize).
Qed.

Lemma no_internal_error_witness :
  let f : list pyval → list (string * pyval) → Z + unit := fun _ _ => inl 10 in
  let st := (run_calls f (Some 1) false init
               [([PyInt 1], []); ([PyInt 2], [])]).1.1 in
  match (call f (Some 1) false st [PyInt 3] []).1.2 with
  | Return _ => True
  | Raise (UserError e) => f [PyInt 3] [] = inr e
  | Raise _ => False
  end.
Proof.
  intros f st.
  refine (proj1 (no_internal_error f (Some 1) false (st, []) [PyInt 3] [] _)).
  apply reachable_run_calls. apply rtc_refl.
Defined.

(** ** What the counters count *)

Section Accounting.

Context {V E : Type}.
Variable user_function : list pyval → list (string * pyval) → V + E.
Variable maxsize : option Z.
Variable typed : bool.

Lemma call_accounting (st : state V) args kwds :
  inv maxsize st →
  let r := call user_function maxsize typed st args kwds in
  misses r.1.1 = misses st + Z.of_nat r.2 ∧
  hits r.1.1 + misses r.1.1 = hits st + misses st + 1 ∧
  (r.2 ≤ 1)%nat.
Proof.
  intros Hi. unfold call.
  destruct (wrapper maxsize typed st args kwds)
    as [st' o|st' args' kwds' resume] eqn:Hw.
  - simpl. unfold inv, wrapper in *. destruct maxsize as [n|].
    + destruct (decide (n = 0)) as [->|Hn]; [done|].
      destruct Hi as (es & Hr & Hc & _).
      destruct (wrapper_bounded_cases (E := E) n typed st es args kwds Hr Hc)
        as [(_ & a & l1 & l2 & st1 & _ & Hw' & _ & _ & _ & Hh & Hm)|[_ Hw']];
        rewrite Hw' in Hw; [|done].
      injection Hw as <- _. lia.
    + unfold wrapper_unbounded in Hw. destruct (cache st !! _); [|done].
      injection Hw as <- _. simpl. lia.
  - apply wrapper_await in Hw as (-> & -> & -> & Hres).
    destruct (user_function args kwds) as [v|e]; simpl; [|lia].
    assert (Hres' : hits (resume v (set_misses (misses st + 1) st)).1 = hits st
                    ∧ misses (resume v (set_misses (misses st + 1) st)).1
                      = misses st + 1).
    { unfold resumes, inv in *. destruct maxsize as [n|].
      - destruct (decide (n = 0)) as [->|Hn]; [by rewrite Hres|].
        destruct Hres as [key ->]. destruct Hi as (es & Hr & Hc & _).
        assert (Hr1 : ring (set_misses (misses st + 1) st) es)
          by (by eapply ring_ext; [..|exact Hr]).
        by destruct (bounded_store_cases (E := E) n _ es key v Hr1 Hc)
          as (st' & es' & -> & _ & _ & Hh & Hm & _).
      - by destruct Hres as [key ->]. }
    destruct Hres' as [-> ->]. lia.
Qed.

End Accounting.

(** X2: from every reachable configuration, a call awaited to its end adds
    to the miss counter exactly the number of invocations of the user
    function it made (none or one), and adds one to hits plus misses; so
    after calls made in sequence on a fresh cache, misses is the number of
    invocations and hits plus misses is the number of calls. *)
Theorem counters_account_for_calls {V E : Type}
    (user_function : list pyval → list (string * pyval) → V + E)
    (maxsize : option Z) (typed : bool) (c : config (V := V) (E := E))
    args kwds calls :
  reachable maxsize typed c →
  (let r := call user_function maxsize typed c.1 args kwds in
   misses r.1.1 = misses c.1 + Z.of_nat r.2 ∧
   hits r.1.1 + misses r.1.1 = hits c.1 + misses c.1 + 1 ∧
   (r.2 ≤ 1)%nat) ∧
  (let r := run_calls user_function maxsize typed c.1 calls in
   misses r.1.1 = misses c.1 + Z.of_nat r.2 ∧
   hits r.1.1 + misses r.1.1
   = hits c.1 + misses c.1 + Z.of_nat (length calls)).
Proof.
  intros Hc. split.
  - apply call_accounting. by apply reachable_sys_inv in Hc as [Hi _].
  - destruct c as [st pending]. simpl. revert st Hc.
    induction calls as [|cl calls IH]; intros st Hc.
    + simpl. lia.
    + cbn [run_calls].
      pose proof (reachable_call user_function _ _ _ _ cl.1 cl.2 Hc) as Hc1.
      apply reachable_sys_inv in Hc as [Hi _]. simpl in Hi.
      pose proof (call_accounting user_function maxsize typed st cl.1 cl.2 Hi)
        as (Hm & Hh & _).
      destruct (call _ _ _ _ _ _) as [[st1 o1] n1]. simpl in *.
      specialize (IH st1 Hc1).
      destruct (run_calls _ _ _ _ _) as [[st2 os] m]. simpl in *. lia.
Qed.

Lemma counters_account_for_calls_witness :
  let f : list pyval → list (string * pyval) → Z + unit := fun _ _ => inl 10 in
  let r := run_calls f (Some 2) false init
             [([PyInt 1], []); ([PyInt 1], []); ([PyInt 2], [])] in
  misses r.1.1 = 0 + Z.of_nat r.2 ∧ hits r.1.1 + misses r.1.1 = 0 + 0 + 3.
Proof.
  intros f.
  exact (proj2 (counters_account_for_calls f (Some 2) false (init, []) [] []
                  [([PyInt 1], []); ([PyInt 1], []); ([PyInt 2], [])]
                  (rtc_refl _ _))).
Defined.

(** ** The full flag *)

(** X3: under a positive capacity [n], in every reachable configuration
    the [full] flag is set exactly when the dictionary holds [n] entries
    (line 154), so an eviction happens only at capacity. *)
Theorem full_flag_iff_at_capacity {V E : Type} (n : Z) (typed : bool)
    (c : config (V := V) (E := E)) :
  0 < n → reachable (Some n) typed c →
  (full c.1 = true ↔ Z.of_nat (size (cache c.1)) = n).
Proof.
  intros Hn Hc. apply reachable_sys_inv in Hc as [(es & Hr & Hcap & _) _].
  destruct (Hcap Hn) as [-> Hle]. rewrite (ring_size _ _ Hr).
  rewrite bool_decide_eq_true. lia.
Qed.

Lemma full_flag_iff_at_capacity_witness :
  let st := (run_calls (V := Z) (E := unit) (fun _ _ => inl 10) (Some 2)
               false init [([PyInt 1], []); ([PyInt 2], [])]).1.1 in
  full st = true ↔ Z.of_nat (size (cache st)) = 2.
Proof.
  intros st.
  refine (full_flag_iff_at_capacity (E := unit) 2 false (st, []) _ _);
    [lia|].
  apply reachable_run_calls. apply rtc_refl.
Defined.

(** ** After [cache_clear] *)

(** X4: whatever the state and the capacity, the first call after
    [cache_clear] invokes the user function: it is a miss, also for
    arguments that were cached before, and the counters then read
    hits 0, misses 1. *)
Theorem call_after_clear_misses {V E : Type}
    (user_function : list pyval → list (string * pyval) → V + E)
    (maxsize : option Z) (typed : bool) (st : state V) args kwds :
  let r := call user_function maxsize typed (cache_clear st) args kwds in
  r.2 = 1%nat ∧ hits r.1.1 = 0 ∧ misses r.1.1 = 1 ∧
  r.1.2 = match user_function args kwds with
          | inl v => Return (PyVal v)
          | inr e => Raise (UserError e)
          end.
Proof.
  unfold call, wrapper. destruct maxsize as [n|].
  - destruct (decide (n = 0)) as [->|Hn].
    + unfold wrapper_zero. by destruct (user_function args kwds).
    + unfold wrapper_bounded. simpl. rewrite lookup_empty.
      destruct (user_function args kwds); [|done].
      unfold bounded_store. simpl. rewrite lookup_empty.
      by rewrite bool_decide_false by (by intros [? ?]).
  - unfold wrapper_unbounded. simpl. rewrite lookup_empty.
    by destruct (user_function args kwds).
Qed.

(** ** The recency order *)






(** ** The root sentinel *)

Section RootSentinel.

Context {V E : Type}.
Variable maxsize : option Z.
Variable typed : bool.

(** The root holds no key and no result. *)
Definition root_empty (st : state V) : Prop :=
  KEY (heap st !!! root st) = None ∧ RESULT (heap st !!! root st) = PyNone.

Lemma inv_root_alloc (st : state V) : inv maxsize st → root st ∈ dom (heap st).
Proof.
  unfold inv. destruct maxsize; intros (es & Hr & _);
    apply (ring_alloc _ _ Hr); left.
Qed.

Lemma bounded_store_root_empty n key (v : V) (st : state V) :
  root st ∈ dom (heap st) → root_empty st →
  root_empty (bounded_store (E := E) n key v st).1.
Proof.
  intros Hal [HK HR]. unfold bounded_store, root_empty.
  destruct (bool_decide (is_Some (cache st !! key))); [done|].
  destruct (full st).
  - match goal with
    | |- context [match ?x with Some _ => _ | None => _ end] =>
        destruct x as [k|]
    end; [case_bool_decide|]; simpl;
      autorewrite with heap; by rewrite !decide_True.
  - simpl. autorewrite with heap.
    assert (Hne : fresh (dom (heap st)) ≠ root st).
    { intros Heq. rewrite <-Heq in Hal. by apply is_fresh in Hal. }
    rewrite lookup_total_insert_ne by done. done.
Qed.

Lemma reachable_root_empty (c : config (V := V) (E := E)) :
  reachable maxsize typed c → root_empty c.1.
Proof.
  apply reachable_invariant.
  - done.
  - intros st _ _. unfold root_empty. simpl.
    by rewrite lookup_total_insert_eq.
  - done.
  - intros st args kwds st' o _ [HK HR]. unfold wrapper.
    destruct maxsize as [n|].
    + destruct (decide (n = 0)) as [->|Hn]; [done|].
      unfold wrapper_bounded.
      destruct (cache st !! _) as [[| |]|]; intros [= <- _]; [|done].
      unfold root_empty, move_to_front. simpl. by autorewrite with heap.
    + unfold wrapper_unbounded. destruct (cache st !! _); [|done].
      by intros [= <- _].
  - intros st resume v Hi HP. unfold resumes. destruct maxsize as [n|] eqn:Hm.
    + destruct (decide (n = 0)) as [->|Hn]; [by intros ->|].
      intros [key ->]. apply bounded_store_root_empty; [|done].
      apply inv_root_alloc. by rewrite Hm.
    + by intros [key ->].
Qed.

End RootSentinel.

(** X7: in every reachable configuration, whatever the capacity, the root
    of the circular list holds no data: its [KEY] and [RESULT] fields are
    [None], also right after an eviction has made the oldest link the new
    root (line 140). *)
Theorem root_sentinel_holds_no_data {V E : Type} (maxsize : option Z)
    (typed : bool) (c : config (V := V) (E := E)) :
  reachable maxsize typed c →
  KEY (heap c.1 !!! root c.1) = None ∧ RESULT (heap c.1 !!! root c.1) = PyNone.
Proof. apply reachable_root_empty. Qed.

Lemma root_sentinel_holds_no_data_witness :
  let st := (run_calls (V := Z) (E := unit) (fun _ _ => inl 10) (Some 1)
               false init [([PyInt 1], []); ([PyInt 2], [])]).1.1 in
  KEY (heap st !!! root st) = None ∧ RESULT (heap st !!! root st) = PyNone.
Proof.
  intros st.
  refine (root_sentinel_holds_no_data (E := unit) (Some 1) false (st, []) _).
  apply reachable_run_calls. apply rtc_refl.
Defined.

(** ** A negative [maxsize] *)

Section NegativeMaxsize.

Context {V E : Type}.
Variable user_function : list pyval → list (string * pyval) → V + E.
Variable n : Z.
Variable typed : bool.

(** At most one entry, and [full] exactly when there is one. *)
Definition one_slot (st : state V) : Prop :=
  (size (cache st) ≤ 1)%nat ∧
  full st = bool_decide (1 ≤ size (cache st))%nat.

Lemma bounded_store_one_slot key (v : V) (st : state V) es :
  n < 0 → ring st es → one_slot st →
  one_slot (bounded_store (E := E) n key v st).1.
Proof.
  intros Hn Hr [Hsz Hf]. destruct (decide (key ∈ es.*2)) as [Hin|Hin].
  - rewrite bounded_store_present; [done|]. by apply (ring_present _ es).
  - assert (Hk : cache st !! key = None).
    { apply eq_None_not_Some. by rewrite (ring_present _ es). }
    pose proof (ring_size _ _ Hr) as Hlen.
    destruct (full st) eqn:Hfull.
    + destruct (ring_evict (E := E) n _ _ _ v Hr Hk Hfull)
        as (st' & x & kx & es' & -> & -> & Hr' & Hf' & _).
      simpl. unfold one_slot. rewrite Hf', (ring_size _ _ Hr').
      rewrite length_app. simpl in *.
      split; [lia|]. symmetry. apply bool_decide_eq_true. lia.
    + destruct (ring_insert (E := E) n _ _ _ v Hr Hk Hfull)
        as (st' & a & -> & Hr' & Hf' & _).
      simpl. unfold one_slot. rewrite Hf', (ring_size _ _ Hr').
      rewrite length_app. simpl.
      symmetry in Hf. apply bool_decide_eq_false in Hf.
      split; [lia|]. rewrite bool_decide_true by lia.
      symmetry. apply bool_decide_eq_true. lia.
Qed.

Lemma reachable_one_slot (c : config (V := V) (E := E)) :
  n < 0 → reachable (Some n) typed c → one_slot c.1.
Proof.
  intros Hn. apply reachable_invariant.
  - unfold one_slot. simpl. rewrite map_size_empty. split; [lia|done].
  - intros st _ _. unfold one_slot. simpl. rewrite map_size_empty.
    split; [lia|done].
  - done.
  - intros st args kwds st' o _ HP. unfold wrapper.
    rewrite decide_False by lia. unfold wrapper_bounded.
    destruct (cache st !! _) as [[| |]|]; by intros [= <- _].
  - intros st resume v (es & Hr & _) HP. unfold resumes.
    rewrite decide_False by lia. intros [key ->].
    by eapply bounded_store_one_slot.
Qed.

(** After a call on which the user function returns, its key is in the
    dictionary of the bounded cache. *)
Lemma call_bounded_caches_key (st : state V) es c :
  n ≠ 0 → ring st es → cap n st es → returns user_function c →
  make_key c.1 c.2 typed
    ∈ dom (cache (call user_function (Some n) typed st c.1 c.2).1.1).
Proof.
  intros Hn Hr Hc [v Hv]. unfold call, wrapper. rewrite decide_False by done.
  destruct (wrapper_bounded_cases (E := E) n typed st es c.1 c.2 Hr Hc)
    as [(Hin & a & l1 & l2 & st1 & -> & -> & Hr' & _ & Hca & _)|[Hk ->]].
  - simpl. rewrite Hca, (ring_cache _ _ Hr), entries_map_dom.
    by apply elem_of_list_to_set.
  - rewrite Hv.
    assert (Hr1 : ring (set_misses (misses st + 1) st) es)
      by (by eapply ring_ext; [..|exact Hr]).
    destruct (bounded_store_cases (E := E) n _ es (make_key c.1 c.2 typed) v
                Hr1 Hc) as (st' & es' & -> & Hr' & _ & _ & _ & Hes).
    simpl. rewrite (ring_cache _ _ Hr'), entries_map_dom, Hes.
    rewrite bool_decide_false by done. apply elem_of_list_to_set.
    destruct (full _); set_solver.
Qed.

End NegativeMaxsize.

(** X8: a negative [maxsize] is not turned into zero: it selects the
    bounded wrapper, whose [full] flag is set by the first insertion.  In
    every reachable configuration the dictionary then holds at most one
    entry, and after a call on which the user function returns it holds
    exactly the key of that call. *)
Theorem negative_maxsize_keeps_one_entry {V E : Type}
    (user_function : list pyval → list (string * pyval) → V + E)
    (n : Z) (typed : bool) (c : config (V := V) (E := E)) args kwds :
  n < 0 → reachable (Some n) typed c →
  (size (cache c.1) ≤ 1)%nat ∧
  (returns user_function (args, kwds) →
   dom (cache (call user_function (Some n) typed c.1 args kwds).1.1)
   = {[ make_key args kwds typed ]}).
Proof.
  intros Hn Hc. split; [by apply (reachable_one_slot n typed c Hn)|].
  intros Hret. destruct c as [st pending].
  pose proof (reachable_call user_function _ _ _ _ args kwds Hc) as Hc1.
  apply (reachable_one_slot n typed _ Hn) in Hc1 as [Hsz _].
  apply reachable_sys_inv in Hc as [(es & Hr & Hcap & _) _].
  pose proof (call_bounded_caches_key user_function n typed st es (args, kwds)
                ltac:(lia) Hr Hcap Hret) as Hin.
  simpl in *. rewrite <-size_dom in Hsz.
  set (D := dom (cache _)) in *.
  assert (Hone : size D = 1%nat).
  { assert (size D ≠ 0%nat); [|lia].
    apply size_non_empty_iff. intros HD. rewrite HD in Hin. set_solver. }
  apply set_eq. intros k. rewrite elem_of_singleton. split.
  - intros Hk. by apply (size_singleton_inv D).
  - by intros ->.
Qed.

Lemma negative_maxsize_keeps_one_entry_witness :
  let f : list pyval → list (string * pyval) → Z + unit := fun _ _ => inl 10 in
  let st := (run_calls f (Some (-1)) false init
               [([PyInt 1], []); ([PyInt 2], [])]).1.1 in
  (size (cache st) ≤ 1)%nat ∧
  dom (cache (call f (Some (-1)) false st [PyInt 3] []).1.1)
  = {[ make_key [PyInt 3] [] false ]}.
Proof.
  intros f st.
  assert (Hc : reachable (E := unit) (Some (-1)) false (st, [])).
  { apply reachable_run_calls. apply rtc_refl. }
  pose proof (negative_maxsize_keeps_one_entry f (-1) false (st, [])
                [PyInt 3] [] ltac:(lia) Hc) as [Hs Hd].
  split; [exact Hs|]. apply Hd. by exists 10.
Defined.

(** ** What a hit returns *)

Section CachedResults.

Context {V E : Type}.
Implicit Types (st : state V) (es : list (addr * dkey)).

(** The bounded cache holds the result [o] for the key [k]: the dictionary
    maps [k] to a link whose [RESULT] is [o]. *)
Definition cached st (k : dkey) (o : obj V) : Prop :=
  ∃ a, cache st !! k = Some (PyLink a) ∧ RESULT (heap st !!! a) = o.

Lemma bounded_store_insert_eq n st key (v : V) :
  cache st !! key = None → full st = false →
  bounded_store (E := E) n key v st
  = (let a := fresh (dom (heap st)) in
     let last := PREV (heap st !!! root st) in
     let h := store_PREV (root st) a
                (store_NEXT last a
                   (<[a := Link last (root st) (Some key) (PyVal v)]>
                      (heap st))) in
     let c := <[key := PyLink a]> (cache st) in
     set_full (bool_decide (n ≤ Z.of_nat (size c)))
       (set_cache c (set_heap h st)),
     Return (PyVal v)).
Proof.
  intros Hk Hf. unfold bounded_store. rewrite Hk, Hf.
  by rewrite bool_decide_false by (by intros [? ?]).
Qed.

Lemma bounded_store_evict_eq n st x kx es' key (v : V) :
  ring st ((x, kx) :: es') → cache st !! key = None → full st = true →
  bounded_store (E := E) n key v st
  = (set_cache (<[key := PyLink (root st)]> (delete kx (cache st)))
       (set_heap
          (store_RESULT x PyNone
             (store_KEY x None
                (store_RESULT (root st) (PyVal v)
                   (store_KEY (root st) (Some key) (heap st)))))
          (set_root x st)),
     Return (PyVal v)).
Proof.
  intros [Hnd Hkd Hal Hch Hky Hca Hfu] Hk Hf.
  simpl in *. destruct Hch as (Hrx & Hxr & Hch).
  apply Forall_cons in Hky as [Hkx Hky]. simpl in Hkx.
  apply NoDup_cons in Hnd as [Hrt Hnd].
  assert (Hxr' : root st ≠ x) by set_solver.
  assert (Hcx : cache st !! kx = Some (PyLink x)).
  { rewrite Hca. apply entries_map_lookup; [done|].
    exists x. split; [done|]. left. }
  unfold bounded_store. rewrite Hk, Hf.
  rewrite bool_decide_false by (by intros [? ?]).
  autorewrite with heap. rewrite Hrx. autorewrite with heap.
  rewrite !decide_False by done. rewrite Hkx. simpl. rewrite Hcx.
  by rewrite bool_decide_true by done.
Qed.

Lemma ring_cached_entry st es k (o : obj V) :
  ring st es → cached st k o →
  ∃ a, (a, k) ∈ es ∧ cache st !! k = Some (PyLink a) ∧
       RESULT (heap st !!! a) = o.
Proof.
  intros Hr (a & Hk & Ho). exists a. split_and!; [|done..].
  rewrite (ring_cache _ _ Hr) in Hk.
  apply entries_map_lookup in Hk as (a' & [= <-] & Hin);
    [done|apply (ring_keys_nodup _ _ Hr)].
Qed.


(** Storing leaves the result cached for another key as it is, unless that
    key is the one evicted. *)
Lemma bounded_store_keeps n st es key (v : V) k o :
  ring st es → cached st k o →
  cached (bounded_store (E := E) n key v st).1 k o ∨
  cache (bounded_store (E := E) n key v st).1 !! k = None.
Proof.
  intros Hr Hc.
  destruct (ring_cached_entry _ _ _ _ Hr Hc) as (a & Hin & Hka & Ho).
  destruct (cache st !! key) as [o'|] eqn:Hk.
  { left. rewrite bounded_store_present; [done|]. by rewrite Hk. }
  assert (Hne : key ≠ k) by (intros ->; congruence).
  pose proof (ring_nodup _ _ Hr) as Hnd.
  assert (Hal : a ∈ dom (heap st)).
  { apply (ring_alloc _ _ Hr). right. apply list_elem_of_fmap.
    by exists (a, k). }
  destruct (full st) eqn:Hf.
  - destruct es as [|[x kx] es']; [by destruct (ring_full _ _ Hr Hf)|].
    rewrite (bounded_store_evict_eq n st x kx es') by done. unfold cached.
    simpl. rewrite lookup_insert_ne by done.
    destruct (decide (k = kx)) as [->|Hkx].
    + right. apply lookup_delete_eq.
    + left. exists a. rewrite lookup_delete_ne by done. split; [done|].
      apply elem_of_cons in Hin as [[= -> ->]|Hin]; [done|].
      simpl in Hnd. apply NoDup_cons in Hnd as [Hrt Hnd].
      apply NoDup_cons in Hnd as [Hx _].
      assert (Ha : a ∈ es'.*1).
      { apply list_elem_of_fmap. by exists (a, k). }
      autorewrite with heap. by rewrite !decide_False by set_solver.
  - left. rewrite bounded_store_insert_eq by done.
    exists a. simpl. rewrite lookup_insert_ne by done. split; [done|].
    autorewrite with heap. rewrite lookup_total_insert_ne; [done|].
    intros Heq. rewrite <-Heq in Hal. by apply is_fresh in Hal.
Qed.

(** A hit leaves every cached result as it is. *)
Lemma move_to_front_RESULT rt lnk (h : gmap addr (link V)) a :
  RESULT (move_to_front rt lnk h !!! a) = RESULT (h !!! a).
Proof. unfold move_to_front. by autorewrite with heap. Qed.

Lemma wrapper_done_keeps n typed st args kwds st' (o' : outcome V E) k o :
  wrapper (Some n) typed st args kwds = Done st' o' →
  cached st k o → cached st' k o.
Proof.
  unfold wrapper. destruct (decide (n = 0)) as [->|Hn]; [done|].
  unfold wrapper_bounded.
  destruct (cache st !! _) as [[| |]|]; intros [= <- _]; [|done].
  intros (lnk & Hk & Ho). exists lnk. simpl. by rewrite move_to_front_RESULT.
Qed.

End CachedResults.

(** X9: in the bounded cache, from every reachable configuration, no step
    of any call changes the result cached for a key: after the step the
    key has the same result, or it is no longer in the dictionary.  A
    concurrent call that computed another value for the key does not
    replace it. *)
Theorem cached_result_never_replaced {V E : Type} (n : Z) (typed : bool)
    (c c' : config (V := V) (E := E)) (k : dkey) (o : obj V) :
  n ≠ 0 → reachable (Some n) typed c → cached c.1 k o →
  call_step (Some n) typed c c' →
  cached c'.1 k o ∨ cache c'.1 !! k = None.
Proof.
  intros Hn Hc Hcached Hs.
  apply reachable_sys_inv in Hc as [(es & Hr & _) Hp].
  destruct Hs as [st pending args kwds st' o' Hw
                 |st pending args kwds st' args' kwds' resume Hw
                 |st p1 resume p2 v|st p1 resume p2]; cbn [fst snd] in *.
  - left. by eapply wrapper_done_keeps.
  - left. apply wrapper_await in Hw as (-> & _). done.
  - apply Forall_app in Hp as [_ Hp]. apply Forall_cons in Hp as [Hp _].
    unfold resumes in Hp. rewrite decide_False in Hp by done.
    destruct Hp as [key ->]. by eapply bounded_store_keeps.
  - by left.
Qed.

Lemma cached_result_never_replaced_witness :
  let st := (call (V := Z) (E := unit) (fun _ _ => inl 10) (Some 2) false init
               [PyInt 1] []).1.1 in
  let k := make_key [PyInt 1] [] false in
  let st' := set_misses (misses st + 1) st in
  cached st k (PyVal 10) ∧
  (cached st' k (PyVal 10) ∨ cache st' !! k = None).
Proof.
  intros st k st'.
  assert (Hcached : cached st k (PyVal 10)).
  { exists 1%nat. split; vm_compute; reflexivity. }
  split; [exact Hcached|].
  refine (cached_result_never_replaced (E := unit) 2 false (st, [])
            (st', [bounded_store 2 (make_key [PyInt 2] [] false)])
            k (PyVal 10) _ _ Hcached _).
  - lia.
  - apply (reachable_call (E := unit) (fun _ _ => inl 10) (Some 2) false
             init [] [PyInt 1] []). apply rtc_refl.
  - eapply step_await. apply wrapper_bounded_miss; [lia|].
    vm_compute. reflexivity.
Defined.

Section RepeatedCall.

Context {V E : Type}.
Variable user_function : list pyval → list (string * pyval) → V + E.
Variable n : Z.
Variable typed : bool.
Hypothesis n_nonzero : n ≠ 0.



End RepeatedCall.



(** ** The list is doubly linked *)

Section WalkBack.

Context {V : Type}.

(** From [a], follows [PREV] until the root comes up; the links passed. *)
Fixpoint walk_back (h : gmap addr (link V)) (rt : addr) (fuel : nat)
    (a : addr) : option (list addr) :=
  if decide (a = rt) then Some []
  else
    match fuel with
    | O => None
    | S fuel' => cons a <$> walk_back h rt fuel' (PREV (h !!! a))
    end.

(** The links of the list, newest first: from [root[PREV]] round to the
    root. *)
Definition ring_links_back (st : state V) : option (list addr) :=
  walk_back (heap st) (root st) (size (heap st)) (PREV (heap st !!! root st)).

Lemma walk_back_chain h s ls t fuel :
  chain h s ls t → s ∉ ls → (length ls ≤ fuel)%nat →
  walk_back h s fuel (PREV (h !!! t)) = Some (reverse ls).
Proof.
  revert t fuel. induction ls as [|x ls IH] using rev_ind; intros t fuel.
  - simpl. intros [_ ->] _ _. destruct fuel; simpl; by rewrite decide_True.
  - rewrite chain_snoc. intros (Hc & _ & ->) Hs Hlen.
    rewrite length_app in Hlen. simpl in Hlen.
    destruct fuel as [|fuel]; [lia|]. simpl.
    rewrite decide_False by set_solver.
    rewrite IH; [|done|set_solver|lia]. by rewrite reverse_snoc.
Qed.

Lemma ring_links_back_ring (st : state V) es :
  ring st es → ring_links_back st = Some (reverse es.*1).
Proof.
  intros Hr. unfold ring_links_back.
  pose proof (ring_nodup _ _ Hr) as Hnd.
  apply walk_back_chain; [apply (ring_chain _ _ Hr)| |].
  - by apply NoDup_cons in Hnd as [].
  - assert (Hsub : list_to_set (C := gset addr) (root st :: es.*1)
                   ⊆ dom (heap st)).
    { intros x Hx. apply elem_of_list_to_set in Hx.
      by apply (ring_alloc _ _ Hr). }
    apply subseteq_size in Hsub.
    rewrite size_list_to_set, size_dom in Hsub by done. simpl in Hsub. lia.
Qed.

End WalkBack.

(** X11: in every reachable configuration, whatever the capacity, walking
    the list from the root by [PREV] comes back to the root and passes the
    same links as walking it by [NEXT], in the opposite order; no link is
    passed twice and the root is not among them. *)
Theorem list_is_doubly_linked {V E : Type} (maxsize : option Z) (typed : bool)
    (c : config (V := V) (E := E)) :
  reachable maxsize typed c →
  ∃ ls, ring_links c.1 = Some ls ∧ ring_links_back c.1 = Some (reverse ls) ∧
        NoDup ls ∧ root c.1 ∉ ls.
Proof.
  intros Hc. apply reachable_sys_inv in Hc as [Hi _]. unfold inv in Hi.
  destruct maxsize as [n|]; destruct Hi as (es & Hr & _); exists es.*1;
    pose proof (ring_links_ring _ _ Hr) as Hf;
    pose proof (ring_links_back_ring _ _ Hr) as Hb;
    pose proof (ring_nodup _ _ Hr) as Hnd;
    apply NoDup_cons in Hnd as [Hrt Hnd];
    (split; [exact Hf|]); (split; [exact Hb|]); (split; [exact Hnd|exact Hrt]).
Qed.

Lemma list_is_doubly_linked_witness :
  let st := (run_calls (V := Z) (E := unit) (fun _ _ => inl 10) (Some 2)
               false init
               [([PyInt 1], []); ([PyInt 2], []); ([PyInt 1], []);
                ([PyInt 3], [])]).1.1 in
  ∃ ls, ring_links st = Some ls ∧ ring_links_back st = Some (reverse ls) ∧
        NoDup ls ∧ root st ∉ ls.
Proof.
  exact ((fun (st : state Z)
              (H : reachable (E := unit) (Some 2) false (st, [])) =>
            (list_is_doubly_linked (Some 2) false (st, []) H
             : ∃ ls, ring_links st = Some ls ∧
                     ring_links_back st = Some (reverse ls) ∧
                     NoDup ls ∧ root st ∉ ls))
           _ (reachable_run_calls (E := unit) (fun _ _ => inl 10) (Some 2)
                false init []
                [([PyInt 1], []); ([PyInt 2], []); ([PyInt 1], []);
                 ([PyInt 3], [])]
                (rtc_refl _ _))).
Defined.

(** ** A race in the unbounded cache *)

Section UnboundedRace.

Context {V E : Type}.

(** Two calls with the same arguments on a fresh unbounded cache: both
    reach their [await] before either is resumed; then the first is resumed
    with [v1] and the second with [v2]. *)
Definition race_unbounded (typed : bool) (args : list pyval)
    (kwds : list (string * pyval)) (v1 v2 : V)
    : option (state V * outcome V E * state V * outcome V E) :=
  match wrapper None typed init args kwds with
  | Await s1 _ _ resume1 =>
      match wrapper None typed s1 args kwds with
      | Await s2 _ _ resume2 =>
          let '(s3, o1) := resume1 v1 s2 in
          let '(s4, o2) := resume2 v2 s3 in
          Some (s3, o1, s4, o2)
      | Done _ _ => None
      end
  | Done _ _ => None
  end.

End UnboundedRace.

(** C5, as stated, fails when calls overlap at the [await]: the unbounded
    wrapper looks the key up before the [await] and stores after it without
    looking again.  Two calls with the argument 1 on a fresh cache both miss
    and both invoke the user function; resumed with the objects 10 and 20
    they return 10 and 20, and a call made after them returns 20, not what
    the first call returned. *)
Lemma unbounded_overlap_counterexample :
  match race_unbounded (V := Z) (E := unit) false [PyInt 1] [] 10 20 with
  | Some (s3, o1, s4, o2) =>
      o1 = Return (PyVal 10) ∧ o2 = Return (PyVal 20) ∧ o2 ≠ o1 ∧
      misses s4 = 2 ∧ hits s4 = 0 ∧
      reachable (E := unit) None false (s4, []) ∧
      (call (E := unit) (fun _ _ => inl 10) None false s4 [PyInt 1] []).1.2
      = Return (PyVal 20)
  | None => False
  end.
Proof.
  pose (key := make_key [PyInt 1] [] false).
  pose (s1 := set_misses (misses (init (V := Z)) + 1) (init (V := Z))).
  pose (s2 := set_misses (misses s1 + 1) s1).
  assert (W1 : wrapper (E := unit) None false init [PyInt 1] []
               = Await s1 [PyInt 1] [] (unbounded_store key)) by reflexivity.
  assert (W2 : wrapper (E := unit) None false s1 [PyInt 1] []
               = Await s2 [PyInt 1] [] (unbounded_store key)) by reflexivity.
  unfold race_unbounded. rewrite W1, W2.
  cbn [unbounded_store]. split_and!; try done.
  - unfold reachable.
    eapply rtc_r; [eapply rtc_r; [eapply rtc_r; [eapply rtc_once|]|]|].
    + apply step_call. eapply step_await. exact W1.
    + apply step_call. eapply step_await. exact W2.
    + apply step_call.
      apply (step_resume None false s2 [unbounded_store key]
               (unbounded_store key) [] 10).
    + apply step_call.
      apply (step_resume None false (unbounded_store (E := unit) key 10 s2).1
               [] (unbounded_store key) [] 20).
Qed.

(** X12: in the unbounded cache the store after the [await] is
    unconditional ([cache[key] = result], line 96): a resumed call replaces
    whatever the dictionary holds for its key, and leaves the other keys and
    the counters alone.  So when two calls with the same arguments both
    await on a fresh cache and their computations return [v1] and [v2], the
    first gets [v1], the second gets [v2], both count a miss, and the
    dictionary ends up holding [v2], the later one. *)
Theorem unbounded_store_last_writer_wins {V E : Type} (typed : bool)
    (args : list pyval) (kwds : list (string * pyval)) (v1 v2 : V)
    (key : dkey) (v : V) (st : state V) :
  (let st' := (unbounded_store (E := E) key v st).1 in
   cache st' !! key = Some (PyVal v) ∧
   (∀ k, k ≠ key → cache st' !! k = cache st !! k) ∧
   hits st' = hits st ∧ misses st' = misses st) ∧
  ∃ s3 s4,
    race_unbounded (E := E) typed args kwds v1 v2
      = Some (s3, Return (PyVal v1), s4, Return (PyVal v2)) ∧
    cache s3 = {[ make_key args kwds typed := PyVal v1 ]} ∧
    cache s4 = {[ make_key args kwds typed := PyVal v2 ]} ∧
    misses s4 = 2 ∧ hits s4 = 0.
Proof.
  split.
  - simpl. rewrite lookup_insert_eq. split_and!; try done.
    intros k Hk. by rewrite lookup_insert_ne.
  - unfold race_unbounded, wrapper, wrapper_unbounded. simpl.
    rewrite !lookup_empty. simpl.
    eexists _, _. split; [reflexivity|]. simpl.
    split_and!; try done. by rewrite insert_insert_eq.
Qed.

(** ** Keyword arguments in the key *)

Section KeywordOrder.

(** The key of a call with keyword arguments lists the positional
    arguments, then the mark, then the name of the first keyword. *)
Lemma make_key_kwds_shape args name x kwds typed :
  ∃ l, make_key args ((name, x) :: kwds) typed
       = DSeq ((hashable_elem <$> (KVal <$> args))
               ++ DMark :: DStr name :: l).
Proof.
  unfold make_key, _make_key. cbn [is_empty]. destruct typed.
  - eexists. cbn [hashable kwds_items flat_map fst snd].
    rewrite !fmap_app, <-!app_assoc. cbn [fmap list_fmap app hashable_elem].
    reflexivity.
  - assert (Hlong : ∃ e1 e2 l,
      ((KVal <$> args) ++ [KMark]) ++ kwds_items ((name, x) :: kwds)
      = e1 :: e2 :: l).
    { destruct args as [|v [|w args]]; simpl; eauto. }
    destruct Hlong as (e1 & e2 & l & Hl). rewrite Hl, <-Hl.
    eexists. cbn [hashable kwds_items flat_map fst snd].
    rewrite !fmap_app, <-!app_assoc. cbn [fmap list_fmap app hashable_elem].
    reflexivity.
Qed.

Lemma make_key_kwds_order args a x b y typed :
  a ≠ b →
  make_key args [(a, x); (b, y)] typed ≠ make_key args [(b, y); (a, x)] typed.
Proof.
  intros Hab.
  destruct (make_key_kwds_shape args a x [(b, y)] typed) as [l1 ->].
  destruct (make_key_kwds_shape args b y [(a, x)] typed) as [l2 ->].
  intros [= H]. apply app_inj_1 in H as [_ [= ?]]; done.
Qed.

Lemma make_key_positional_vs_keyword v name typed :
  make_key [v] [] typed ≠ make_key [] [(name, v)] typed.
Proof.
  destruct (make_key_kwds_shape [] name v [] typed) as [l ->].
  unfold make_key, _make_key. cbn [is_empty]. destruct typed.
  - simpl. destruct v; discriminate.
  - simpl. destruct v; simpl; discriminate.
Qed.

End KeywordOrder.

(** X13: the key keeps the keyword arguments in the order of the call:
    two calls that pass the same two keyword arguments in different orders
    have different keys, and so do a call that passes a value by position
    and one that passes it by keyword; on a fresh cache that can hold two
    entries each pair of calls makes two entries. *)
Theorem keyword_order_makes_distinct_entries {V E : Type}
    (user_function : list pyval → list (string * pyval) → V + E)
    (maxsize : option Z) (typed : bool) args a x b y :
  a ≠ b →
  maxsize = None ∨ (∃ n, maxsize = Some n ∧ 2 ≤ n) →
  returns user_function (args, [(a, x); (b, y)]) →
  returns user_function (args, [(b, y); (a, x)]) →
  make_key args [(a, x); (b, y)] typed ≠ make_key args [(b, y); (a, x)] typed ∧
  make_key [x] [] typed ≠ make_key [] [(a, x)] typed ∧
  size (cache (run_calls user_function maxsize typed init
                 [(args, [(a, x); (b, y)]); (args, [(b, y); (a, x)])]).1.1)
  = 2%nat.
Proof.
  intros Hab Hm H1 H2. split_and!.
  - by apply make_key_kwds_order.
  - apply make_key_positional_vs_keyword.
  - rewrite (two_calls_size _ _ _ _ _ Hm H1 H2). simpl.
    rewrite decide_False; [done|]. by apply make_key_kwds_order.
Qed.

Lemma keyword_order_makes_distinct_entries_witness :
  let f : list pyval → list (string * pyval) → Z + unit := fun _ _ => inl 10 in
  size (cache (run_calls f None false init
                 [([], [("a", PyInt 1); ("b", PyInt 2)]);
                  ([], [("b", PyInt 2); ("a", PyInt 1)])]).1.1)
  = 2%nat.
Proof.
  intros f.
  assert (Hab : "a" ≠ "b") by discriminate.
  exact (proj2 (proj2 (keyword_order_makes_distinct_entries f None false []
                         "a" (PyInt 1) "b" (PyInt 2) Hab (or_introl eq_refl)
                         (ex_intro _ 10 eq_refl) (ex_intro _ 10 eq_refl)))).
Defined.
